(** * Metricon AI Assistant: the document-to-knowledge pipeline and the
      answer-assembly protocol, embedded from the Python sources

    The development follows the four source files:
    - [chunker.py]: [split_text], [enrich_chunk], [agentic_chunking_pipeline];
    - [data_ingestion.py]: [create_collection], [ingest_chunks];
    - [app.py]: [rag_answer].

    Python values are modelled as the code has them: a [str] is a sequence of
    code points, a [dict] is a finite map, a JSON document is the tree that
    [json.loads] builds, an exception is a value of an error monad, and a
    [while] loop is a fuel-indexed iteration. What the collaborators answer
    (Bedrock, the sentence embedder, the nearest-neighbour query) and what
    the runtime computes ([json.loads], [str()] of a value or of an
    exception) are parameters of the functions that call them; the
    collections of the Qdrant server are a finite map that the ingestion
    script updates. *)

From Stdlib Require Import ZArith QArith_base String Ascii.
From stdpp Require Import gmap list pretty.

Set Warnings "-register-all".

(** ** Python strings *)

(** A Python [str] is a sequence of Unicode code points, so [len] and
    slicing count code points. *)
Definition str := list N.

(** A source literal made of ASCII characters. *)
Definition lit (s : string) : str := map N_of_ascii (list_ascii_of_string s).

(** [len(x)] as a Python integer. *)
Definition len {A} (l : list A) : Z := Z.of_nat (length l).

(** [c.isspace()]: the code points CPython treats as whitespace, which is
    the set [str.split()] and [str.strip()] use when called without
    arguments. *)
Definition isspace (c : N) : bool :=
  ((9 <=? c) && (c <=? 13) || (28 <=? c) && (c <=? 32) || (c =? 133)
   || (c =? 160) || (c =? 5760) || (8192 <=? c) && (c <=? 8202)
   || (c =? 8232) || (c =? 8233) || (c =? 8239) || (c =? 8287)
   || (c =? 12288))%N.

(** [text.split()]: maximal runs of non-whitespace, in order. [cur] holds
    the token being read, most recent character first. *)
Fixpoint str_split_aux (cur : str) (s : str) : list str :=
  match s with
  | [] => match cur with [] => [] | _ => [rev cur] end
  | c :: s' =>
      if isspace c
      then match cur with
           | [] => str_split_aux [] s'
           | _ => rev cur :: str_split_aux [] s'
           end
      else str_split_aux (c :: cur) s'
  end.

Definition str_split (s : str) : list str := str_split_aux [] s.

(** [sep.join(parts)]. *)
Fixpoint str_join (sep : str) (parts : list str) : str :=
  match parts with
  | [] => []
  | [p] => p
  | p :: rest => p ++ sep ++ str_join sep rest
  end.

Fixpoint str_lstrip (s : str) : str :=
  match s with
  | c :: s' => if isspace c then str_lstrip s' else s
  | [] => []
  end.

(** [s.strip()]. *)
Definition str_strip (s : str) : str := rev (str_lstrip (rev (str_lstrip s))).

Fixpoint is_prefix (p s : str) : bool :=
  match p, s with
  | [], _ => true
  | a :: p', b :: s' => (a =? b)%N && is_prefix p' s'
  | _ :: _, [] => false
  end.

(** [s.replace(old, new)] for a non-empty [old]: the non-overlapping
    occurrences of [old], leftmost first. [skip] counts the characters of
    an occurrence still to be consumed. *)
Fixpoint str_replace_aux (old new : str) (skip : nat) (s : str) : str :=
  match s with
  | [] => []
  | c :: s' =>
      match skip with
      | S k => str_replace_aux old new k s'
      | O =>
          if is_prefix old s
          then new ++ str_replace_aux old new (length old - 1) s'
          else c :: str_replace_aux old new 0 s'
      end
  end.

Definition str_replace (old new s : str) : str := str_replace_aux old new 0 s.

(** The index adjustment of a slice bound against a sequence of length [n]:
    a negative bound counts from the end, and both ends are clamped. *)
Definition adjust_index (n i : Z) : Z :=
  if (i <? 0)%Z then Z.max 0 (i + n) else Z.min i n.

(** [l[lo:hi]]. *)
Definition py_slice {A} (l : list A) (lo hi : Z) : list A :=
  let n := len l in
  let lo' := adjust_index n lo in
  let hi' := adjust_index n hi in
  take (Z.to_nat (hi' - lo')) (drop (Z.to_nat lo') l).

(** ** JSON documents *)

(** The values [json.loads] builds: [None], [bool], [int], [float] (kept as
    its IEEE-754 binary64 bit pattern), [str], [list] and [dict]. A [dict]
    built from a JSON object has [str] keys, and a repeated key keeps its
    last value. *)
Inductive json :=
| JNull
| JBool (b : bool)
| JInt (z : Z)
| JFloat (bits : Z)
| JStr (s : str)
| JArr (l : list json)
| JObj (d : gmap str json).

(** The type of a Python value, as error messages name it. *)
Inductive pytype := TNone | TBool | TInt | TFloat | TStr | TList | TDict.

Definition type_of (v : json) : pytype :=
  match v with
  | JNull => TNone
  | JBool _ => TBool
  | JInt _ => TInt
  | JFloat _ => TFloat
  | JStr _ => TStr
  | JArr _ => TList
  | JObj _ => TDict
  end.

(** ** Exceptions and results *)

(** Instances of [Exception]: what [except Exception] catches. Signals that
    derive from [BaseException] only ([KeyboardInterrupt], [SystemExit]) are
    no part of the model. *)
Inductive exn :=
| KeyError (key : json)
| IndexError
| TypeError (operand : pytype)
| AttributeError (operand : pytype) (attr : str)
| JSONDecodeError (doc : str)
| ServiceError (msg : str).

(** The outcome of running a piece of Python: a value, a raised exception,
    or a loop that has not finished within the fuel given. *)
Inductive res (A : Type) :=
| Ret (a : A)
| Raise (e : exn)
| OutOfFuel.
Arguments Ret {A} a.
Arguments Raise {A} e.
Arguments OutOfFuel {A}.

(** Sequencing: the first exception, or the first exhausted loop, ends the
    computation. Written [x ← m; k] below. *)
#[global] Instance res_bind : MBind res := λ A B k m,
  match m with
  | Ret a => k a
  | Raise e => Raise e
  | OutOfFuel => OutOfFuel
  end.

(** [try: body / except Exception as e: handler(e)]. *)
Definition try_except {A} (body : res A) (handler : exn → res A) : res A :=
  match body with
  | Raise e => handler e
  | r => r
  end.

(** ** chunker.py: [split_text] *)

(** The [while start < len(words)] loop of [split_text]. One unit of fuel
    pays for one evaluation of the loop condition. *)
Fixpoint split_text_loop (fuel : nat) (words : list str)
    (chunk_size overlap start : Z) (chunks : list str) : res (list str) :=
  match fuel with
  | O => OutOfFuel
  | S fuel' =>
      if (start <? len words)%Z then
        let end_ := (start + chunk_size)%Z in
        let chunk := str_join (lit " ") (py_slice words start end_) in
        let chunks' :=
          if (50 <? len (str_strip chunk))%Z then chunks ++ [chunk] else chunks in
        split_text_loop fuel' words chunk_size overlap
          (start + (chunk_size - overlap))%Z chunks'
      else Ret chunks
  end.

Definition split_text (fuel : nat) (text : str) (chunk_size overlap : Z)
    : res (list str) :=
  split_text_loop fuel (str_split text) chunk_size overlap 0 [].

(** The default arguments of [split_text]. *)
Definition default_chunk_size : Z := 400.
Definition default_overlap : Z := 50.

(** ** Python values and the runtime *)

(** What an external collaborator hands back: a value or an exception. *)
Inductive reply (A : Type) :=
| Answer (a : A)
| Failure (e : exn).
Arguments Answer {A} a.
Arguments Failure {A} e.

Definition of_reply {A} (r : reply A) : res A :=
  match r with
  | Answer a => Ret a
  | Failure e => Raise e
  end.

(** The parts of the Python runtime the sources call and do not define:
    [json.loads] ([None] stands for [JSONDecodeError]), [str(v)] of a value
    that is not a [str], and [str(e)] of an exception. *)
Class Runtime := {
  json_loads : str → option json;
  str_other : json → str;
  exn_str : exn → str
}.

Section python_values.
Context `{Runtime}.

Definition loads (doc : str) : res json :=
  match json_loads doc with
  | Some v => Ret v
  | None => Raise (JSONDecodeError doc)
  end.

(** A value interpolated into an f-string. *)
Definition format_value (v : json) : str :=
  match v with
  | JStr s => s
  | _ => str_other v
  end.

(** [v[key]] for a [str] key. *)
Definition getitem (v : json) (key : str) : res json :=
  match v with
  | JObj d =>
      match d !! key with
      | Some x => Ret x
      | None => Raise (KeyError (JStr key))
      end
  | _ => Raise (TypeError (type_of v))
  end.

(** [v[0]]. A [dict] from JSON has no integer key. *)
Definition getitem0 (v : json) : res json :=
  match v with
  | JArr (x :: _) => Ret x
  | JArr [] => Raise IndexError
  | JStr (c :: _) => Ret (JStr [c])
  | JStr [] => Raise IndexError
  | JObj _ => Raise (KeyError (JInt 0))
  | _ => Raise (TypeError (type_of v))
  end.

(** [v.strip()]: only a [str] has the method. *)
Definition method_strip (v : json) : res str :=
  match v with
  | JStr s => Ret (str_strip s)
  | _ => Raise (AttributeError (type_of v) (lit "strip"))
  end.

(** [v.get(key, default)]: only a [dict] has the method. *)
Definition method_get (v : json) (key : str) (dflt : json) : res json :=
  match v with
  | JObj d => Ret (default dflt (d !! key))
  | _ => Raise (AttributeError (type_of v) (lit "get"))
  end.

End python_values.

(** ** chunker.py: [enrich_chunk] *)

(** The body of a Bedrock request, before [json.dumps]: one user message
    carrying the prompt, and the inference configuration. *)
Record request := {
  modelId : str;
  prompt : str;
  maxTokens : Z;
  temperature : Q
}.

Definition nova_micro : str := lit "amazon.nova-micro-v1:0".

Section enrich.
Context `{Runtime}.

Definition enrich_prompt (chunk_text : str) : str :=
  lit "
You are an intelligent document analyst for Metricon Homes.
Analyze the following text chunk and return a JSON object with these exact fields:
- title: A short descriptive title (max 10 words)
- summary: A concise summary (max 50 words)
- keywords: A list of 5 important keywords
- category: One of [Building Process, Costs & Finance, Why Metricon, FAQ, General]
- importance: A score from 1-10 indicating usefulness for customer queries

Text chunk:
" ++ chunk_text ++ lit "

Respond ONLY with a valid JSON object. No explanation, no markdown, no extra text.
".

Definition enrich_request (chunk_text : str) : request :=
  {| modelId := nova_micro;
     prompt := enrich_prompt chunk_text;
     maxTokens := 300;
     temperature := 2 # 10 |}.

(** [output["output"]["message"]["content"][0]["text"]]. *)
Definition message_text (output : json) : res json :=
  o ← getitem output (lit "output");
  m ← getitem o (lit "message");
  c ← getitem m (lit "content");
  c0 ← getitem0 c;
  getitem c0 (lit "text").

(** The dictionary of the [except] branch. *)
Definition fallback_metadata (chunk_text : str) : json :=
  JObj (<[lit "title" := JStr (lit "General Information")]>
       (<[lit "summary" := JStr (py_slice chunk_text 0 100)]>
       (<[lit "keywords" := JArr []]>
       (<[lit "category" := JStr (lit "General")]>
       (<[lit "importance" := JInt 5]> ∅))))).

(** The [try] block: the call, the decoding of the response envelope, the
    removal of the code-fence markers and the decoding of the model's text. *)
Definition enrich_try (invoke_model : request → reply str) (chunk_text : str)
    : res json :=
  body ← of_reply (invoke_model (enrich_request chunk_text));
  output ← loads body;
  raw ← message_text output;
  raw ← method_strip raw;
  let raw := str_strip (str_replace (lit "```") []
                         (str_replace (lit "```json") [] raw)) in
  enriched ← loads raw;
  Ret enriched.

Definition enrich_chunk (invoke_model : request → reply str)
    (chunk_text source : str) : res json :=
  try_except (enrich_try invoke_model chunk_text)
    (λ e, Ret (fallback_metadata chunk_text)).

End enrich.

(** ** chunker.py: [agentic_chunking_pipeline] *)

(** A loaded PDF: [{"source": ..., "text": ...}]. *)
Record Document := {
  doc_source : str;
  doc_text : str
}.

(** An entry of [all_chunks]. The five metadata fields hold whatever the
    enrichment dictionary holds under the key, so they are JSON values. *)
Record EnrichedChunk := {
  ec_id : Z;
  ec_source : str;
  ec_text : str;
  ec_title : json;
  ec_summary : json;
  ec_keywords : json;
  ec_category : json;
  ec_importance : json
}.

(** The variables the two nested loops update, and the number of Bedrock
    calls made so far. *)
Record pipeline_state := {
  all_chunks : list EnrichedChunk;
  chunk_id : Z;
  calls : nat
}.

Definition initial_state : pipeline_state :=
  {| all_chunks := []; chunk_id := 0; calls := 0 |}.

(** A [for] loop whose body updates the loop state and may raise. *)
Fixpoint for_each {A S} (body : S → A → res S) (xs : list A) (s : S) : res S :=
  match xs with
  | [] => Ret s
  | x :: xs' => s' ← body s x; for_each body xs' s'
  end.

Section pipeline.
Context `{Runtime}.

(** Bedrock as the pipeline sees it: the reply to the [n]-th request. *)
Variable bedrock : nat → request → reply str.

(** The body of the inner loop: enrich one raw chunk and append its entry. *)
Definition pipeline_chunk (source : str) (st : pipeline_state) (chunk : str)
    : res pipeline_state :=
  enriched ← enrich_chunk (bedrock (calls st)) chunk source;
  title ← method_get enriched (lit "title") (JStr []);
  summary ← method_get enriched (lit "summary") (JStr []);
  keywords ← method_get enriched (lit "keywords") (JArr []);
  category ← method_get enriched (lit "category") (JStr (lit "General"));
  importance ← method_get enriched (lit "importance") (JInt 5);
  Ret {| all_chunks := all_chunks st ++
           [ {| ec_id := chunk_id st;
                ec_source := source;
                ec_text := chunk;
                ec_title := title;
                ec_summary := summary;
                ec_keywords := keywords;
                ec_category := category;
                ec_importance := importance |} ];
         chunk_id := (chunk_id st + 1)%Z;
         calls := S (calls st) |}.

(** The body of the outer loop: split one document, then enrich its chunks. *)
Definition pipeline_document (fuel : nat) (st : pipeline_state) (doc : Document)
    : res pipeline_state :=
  raw_chunks ← split_text fuel (doc_text doc) default_chunk_size default_overlap;
  for_each (pipeline_chunk (doc_source doc)) raw_chunks st.

(** The pipeline on the documents [load_pdfs] returned. Writing the result
    to [chunker/chunks.json] leaves it unchanged. *)
Definition agentic_chunking_pipeline (fuel : nat) (documents : list Document)
    : res (list EnrichedChunk) :=
  st ← for_each (pipeline_document fuel) documents initial_state;
  Ret (all_chunks st).

End pipeline.

(** The categories the enrichment prompt allows, and the range it asks for. *)
Definition allowed_categories : list str :=
  [ lit "Building Process"; lit "Costs & Finance"; lit "Why Metricon";
    lit "FAQ"; lit "General" ].

Definition valid_category (v : json) : bool :=
  match v with
  | JStr s => bool_decide (s ∈ allowed_categories)
  | _ => false
  end.

Definition valid_importance (v : json) : bool :=
  match v with
  | JInt z => (1 <=? z)%Z && (z <=? 10)%Z
  | _ => false
  end.

(** ** data_ingestion.py *)

(** An embedding: the components as binary64 bit patterns. *)
Definition vector := list Z.

(** A point of the index: [PointStruct(id, vector, payload)]. *)
Record PointStruct := {
  pt_id : Z;
  pt_vector : vector;
  pt_payload : gmap str json
}.

(** A Qdrant collection: its vector size and its points by id. The
    distance is always cosine here. *)
Record collection := {
  coll_size : Z;
  coll_points : gmap Z PointStruct
}.

(** The collections of the Qdrant server, by name. *)
Abbreviation qdrant_state := (gmap str collection).

Definition COLLECTION : str := lit "metricon_rag".

(** The vector index service (delete-collection, create-collection and
    batch upsert): creating a collection that exists fails, as does an
    upsert into a missing collection or of a vector of the wrong size; an
    upsert replaces the point stored under the same id. *)
Definition qdrant_delete_collection (name : str) (q : qdrant_state)
    : res qdrant_state :=
  Ret (delete name q).

Definition qdrant_create_collection (name : str) (size : Z) (q : qdrant_state)
    : res qdrant_state :=
  match q !! name with
  | Some _ => Raise (ServiceError (lit "Collection already exists"))
  | None => Ret (<[name := {| coll_size := size; coll_points := ∅ |}]> q)
  end.

Definition upsert_point (pts : gmap Z PointStruct) (p : PointStruct)
    : gmap Z PointStruct :=
  <[pt_id p := p]> pts.

Definition qdrant_upsert (name : str) (points : list PointStruct)
    (q : qdrant_state) : res qdrant_state :=
  match q !! name with
  | None => Raise (ServiceError (lit "Collection not found"))
  | Some c =>
      if forallb (λ p, (len (pt_vector p) =? coll_size c)%Z) points
      then Ret (<[name := {| coll_size := coll_size c;
                             coll_points := foldl upsert_point (coll_points c) points |}]> q)
      else Raise (ServiceError (lit "Vector dimension error"))
  end.

Definition create_collection (q : qdrant_state) : res qdrant_state :=
  q ← (if bool_decide (COLLECTION ∈ dom q)
       then qdrant_delete_collection COLLECTION q
       else Ret q);
  qdrant_create_collection COLLECTION 384 q.

Section ingestion.
Context `{Runtime}.

(** The sentence embedder of one run. *)
Variable encode : str → reply vector.

Definition text_to_embed (chunk : EnrichedChunk) : str :=
  format_value (ec_title chunk) ++ lit " " ++
  format_value (ec_summary chunk) ++ lit " " ++ ec_text chunk.

Definition chunk_payload (chunk : EnrichedChunk) : gmap str json :=
  <[lit "text" := JStr (ec_text chunk)]>
  (<[lit "title" := ec_title chunk]>
  (<[lit "summary" := ec_summary chunk]>
  (<[lit "keywords" := ec_keywords chunk]>
  (<[lit "category" := ec_category chunk]>
  (<[lit "importance" := ec_importance chunk]>
  (<[lit "source" := JStr (ec_source chunk)]> ∅)))))).

(** The body of the loop over the catalog. *)
Definition ingest_chunk (points : list PointStruct) (chunk : EnrichedChunk)
    : res (list PointStruct) :=
  vector ← of_reply (encode (text_to_embed chunk));
  Ret (points ++ [ {| pt_id := ec_id chunk;
                      pt_vector := vector;
                      pt_payload := chunk_payload chunk |} ]).

(** [ingest_chunks] on the catalog read from [chunker/chunks.json]. *)
Definition ingest_chunks (chunks : list EnrichedChunk) (q : qdrant_state)
    : res qdrant_state :=
  points ← for_each ingest_chunk chunks [];
  qdrant_upsert COLLECTION points q.

(** The script: [create_collection()] and then [ingest_chunks()]. *)
Definition data_ingestion (chunks : list EnrichedChunk) (q : qdrant_state)
    : res qdrant_state :=
  q ← create_collection q;
  ingest_chunks chunks q.

End ingestion.

(** The ids and the payloads of the index a build leaves behind. *)
Definition index_ids (q : qdrant_state) : gset Z :=
  match q !! COLLECTION with
  | Some c => dom (coll_points c)
  | None => ∅
  end.

Definition index_payload (q : qdrant_state) (i : Z) : option (gmap str json) :=
  c ← q !! COLLECTION; p ← coll_points c !! i; Some (pt_payload p).

(** ** app.py: [rag_answer] *)

Inductive role := user | assistant.

(** A turn of the conversation: [{"role": ..., "content": ...}]. The
    content of an assistant turn is what the model's reply holds at its text
    path, so it is a JSON value. *)
Record turn := {
  turn_role : role;
  content : json
}.

(** A point [qdrant.query_points] returns; its payload may be absent. *)
Record ScoredPoint := {
  payload : option (gmap str json)
}.

(** The collaborators of one invocation of [rag_answer]. *)
Record services := {
  embedder_encode : str → reply vector;
  qdrant_query_points : str → vector → Z → reply (list ScoredPoint);
  bedrock_invoke_model : request → reply str
}.

(** The calls made to the collaborators, in order. *)
Inductive call :=
| CallEncode (text : str)
| CallQueryPoints (collection_name : str) (query : vector) (limit : Z)
| CallInvokeModel (req : request).

Definition is_invoke_model (c : call) : bool :=
  match c with
  | CallInvokeModel _ => true
  | _ => false
  end.

(** Python code that calls collaborators: it extends the log of calls and
    returns or raises. *)
Definition io (A : Type) : Type := list call → res A * list call.

#[global] Instance io_ret : MRet io := λ A a log, (Ret a, log).

#[global] Instance io_bind : MBind io := λ A B k m log,
  match m log with
  | (Ret a, log') => k a log'
  | (Raise e, log') => (Raise e, log')
  | (OutOfFuel, log') => (OutOfFuel, log')
  end.

(** A call to a collaborator. *)
Definition external {A} (c : call) (r : reply A) : io A :=
  λ log, (of_reply r, log ++ [c]).

(** Python code that calls no collaborator. *)
Definition internal {A} (r : res A) : io A := λ log, (r, log).

(** [try: body / except Exception as e: handler(e)] around such code. *)
Definition io_try_except {A} (body : io A) (handler : exn → io A) : io A :=
  λ log,
    match body log with
    | (Raise e, log') => handler e log'
    | r => r
    end.

Definition nl : str := [10%N].
Definition dquote : str := [34%N].

(** The literals of [rag_answer] that hold characters outside ASCII. *)
Definition warning_sign : str := [9888%N; 65039%N].
Definition cross_mark : str := [10060%N].
Definition page_facing_up : str := [128196%N].
Definition open_file_folder : str := [128194%N].
Definition label_sign : str := [127991%N; 65039%N].
Definition star_sign : str := [11088%N].

Definition no_information_message : str :=
  warning_sign ++
  lit " No relevant information found. Please contact Metricon on 1300 786 773.".

Definition error_message (message : str) : str :=
  cross_mark ++ lit " Error: " ++ message.

Definition user_turn (question : str) : turn :=
  {| turn_role := user; content := JStr question |}.

Definition assistant_turn (answer : json) : turn :=
  {| turn_role := assistant; content := answer |}.

Section answer.
Context `{Runtime}.

Definition payload_value (p : ScoredPoint) : json :=
  match payload p with
  | Some d => JObj d
  | None => JNull
  end.

(** The body of the loop over [results.points]: one more context chunk and
    one more source line. *)
Definition render_point (acc : list str * list str) (p : ScoredPoint)
    : res (list str * list str) :=
  let pv := payload_value p in
  category ← getitem pv (lit "category");
  title ← getitem pv (lit "title");
  text ← getitem pv (lit "text");
  let context_chunks := acc.1 ++
    [ lit "[" ++ format_value category ++ lit "] " ++ format_value title ++
      nl ++ format_value text ] in
  title ← getitem pv (lit "title");
  source ← getitem pv (lit "source");
  category ← getitem pv (lit "category");
  importance ← getitem pv (lit "importance");
  let sources := acc.2 ++
    [ page_facing_up ++ lit " **" ++ format_value title ++ lit "**" ++ nl ++
      open_file_folder ++ lit " " ++ format_value source ++ lit " | " ++
      label_sign ++ lit " " ++ format_value category ++ lit " | " ++
      star_sign ++ lit " " ++ format_value importance ++ lit "/10" ] in
  Ret (context_chunks, sources).

Definition answer_prompt (context question : str) : str :=
  lit "
You are a friendly and professional AI assistant for Metricon Homes Australia.
Answer the customer's question using ONLY the provided context.
Be warm, helpful and concise. Use dot points where appropriate.
If the answer is not in the context, say " ++ dquote ++
  lit "I don't have that information. Please contact Metricon on 1300 786 773 or visit metricon.com.au" ++
  dquote ++ lit "

CONTEXT:
" ++ context ++ lit "

QUESTION:
" ++ question ++ lit "

ANSWER:
".

Definition answer_request (context question : str) : request :=
  {| modelId := nova_micro;
     prompt := answer_prompt context question;
     maxTokens := 400;
     temperature := 2 # 10 |}.

(** The [try] block of [rag_answer]. [history.append] is modelled by the
    list that results; the caller's list is that same object. [top_k] is the
    integer the slider holds, so [int(top_k)] is [top_k]. *)
Definition rag_try (svc : services) (question : str) (history : list turn)
    (top_k : Z) (show_sources : bool) : io (list turn * str) :=
  query_vec ← external (CallEncode question) (embedder_encode svc question);
  points ← external (CallQueryPoints COLLECTION query_vec top_k)
             (qdrant_query_points svc COLLECTION query_vec top_k);
  match points with
  | [] =>
      mret (history ++ [ user_turn question;
                         assistant_turn (JStr no_information_message) ], [])
  | _ =>
      rendered ← internal (for_each render_point points ([], []));
      let context := str_join (nl ++ nl) rendered.1 in
      let req := answer_request context question in
      body ← external (CallInvokeModel req) (bedrock_invoke_model svc req);
      output ← internal (loads body);
      answer ← internal (message_text output);
      let sources_text :=
        if show_sources then str_join (nl ++ nl) rendered.2 else [] in
      mret (history ++ [ user_turn question; assistant_turn answer ],
            sources_text)
  end.

Definition rag_except (question : str) (history : list turn) (e : exn)
    : io (list turn * str) :=
  mret (history ++ [ user_turn question;
                     assistant_turn (JStr (error_message (exn_str e))) ], []).

Definition rag_answer (svc : services) (question : str) (history : list turn)
    (top_k : Z) (show_sources : bool) : res (list turn * str) * list call :=
  io_try_except (rag_try svc question history top_k show_sources)
    (rag_except question history) [].

End answer.

(** The [clear] handler of the page. *)
Definition clear : list turn * str := ([], []).

(** ** A concrete runtime *)

(** A decoder for the JSON documents of the examples: objects, arrays,
    strings with the short escapes, integers, [true], [false] and [null],
    with the whitespace JSON allows. On these it builds what [json.loads]
    builds; it rejects a number with a fraction or an exponent and the
    [\u] escape, which the examples do not use. *)
Definition json_space (c : N) : bool :=
  ((c =? 32) || (c =? 9) || (c =? 10) || (c =? 13))%N.

Fixpoint skip_space (s : str) : str :=
  match s with
  | c :: s' => if json_space c then skip_space s' else s
  | [] => []
  end.

Definition unescape (c : N) : option N :=
  (if c =? 34 then Some 34 else if c =? 92 then Some 92
   else if c =? 47 then Some 47 else if c =? 110 then Some 10
   else if c =? 116 then Some 9 else if c =? 114 then Some 13
   else if c =? 98 then Some 8 else if c =? 102 then Some 12
   else None)%N.

(** The rest of a string after its opening quote. *)
Fixpoint decode_string (acc : str) (s : str) : option (str * str) :=
  match s with
  | [] => None
  | c :: rest =>
      if (c =? 34)%N then Some (rev acc, rest)
      else if (c =? 92)%N then
        match rest with
        | e :: rest' => x ← unescape e; decode_string (x :: acc) rest'
        | [] => None
        end
      else if (c <? 32)%N then None
      else decode_string (c :: acc) rest
  end.

Definition is_digit (c : N) : bool := ((48 <=? c) && (c <=? 57))%N.

Fixpoint decode_digits (acc : Z) (s : str) : Z * str :=
  match s with
  | c :: s' =>
      if is_digit c then decode_digits (10 * acc + Z.of_N (c - 48))%Z s'
      else (acc, s)
  | [] => (acc, [])
  end.

(** An integer without sign; a leading zero stands alone. *)
Definition decode_natural (s : str) : option (Z * str) :=
  match s with
  | c :: s' =>
      if is_digit c then
        let '(z, rest) := if (c =? 48)%N then (0%Z, s') else decode_digits 0 s in
        match rest with
        | d :: _ =>
            if ((d =? 46) || (d =? 101) || (d =? 69))%N then None
            else Some (z, rest)
        | [] => Some (z, rest)
        end
      else None
  | [] => None
  end.

Definition decode_word (w : str) (v : json) (s : str) : option (json * str) :=
  if is_prefix w s then Some (v, drop (length w) s) else None.

Fixpoint decode_value (fuel : nat) (s : str) : option (json * str) :=
  match fuel with
  | O => None
  | S f =>
      match skip_space s with
      | [] => None
      | c :: r =>
          if (c =? 34)%N then
            '(x, r') ← decode_string [] r; Some (JStr x, r')
          else if (c =? 91)%N then
            match skip_space r with
            | c' :: r' =>
                if (c' =? 93)%N then Some (JArr [], r') else decode_elems f [] r
            | [] => None
            end
          else if (c =? 123)%N then
            match skip_space r with
            | c' :: r' =>
                if (c' =? 125)%N then Some (JObj ∅, r') else decode_members f ∅ r
            | [] => None
            end
          else if (c =? 45)%N then
            '(z, r') ← decode_natural r; Some (JInt (- z), r')
          else if is_digit c then
            '(z, r') ← decode_natural (c :: r); Some (JInt z, r')
          else if (c =? 110)%N then decode_word (lit "null") JNull (c :: r)
          else if (c =? 116)%N then decode_word (lit "true") (JBool true) (c :: r)
          else if (c =? 102)%N then decode_word (lit "false") (JBool false) (c :: r)
          else None
      end
  end
with decode_elems (fuel : nat) (acc : list json) (s : str) : option (json * str) :=
  match fuel with
  | O => None
  | S f =>
      '(v, r) ← decode_value f s;
      match skip_space r with
      | c :: r' =>
          if (c =? 44)%N then decode_elems f (v :: acc) r'
          else if (c =? 93)%N then Some (JArr (rev (v :: acc)), r')
          else None
      | [] => None
      end
  end
with decode_members (fuel : nat) (d : gmap str json) (s : str)
    : option (json * str) :=
  match fuel with
  | O => None
  | S f =>
      match skip_space s with
      | c :: r =>
          if (c =? 34)%N then
            '(k, r1) ← decode_string [] r;
            match skip_space r1 with
            | c1 :: r2 =>
                if (c1 =? 58)%N then
                  '(v, r3) ← decode_value f r2;
                  match skip_space r3 with
                  | c3 :: r4 =>
                      if (c3 =? 44)%N then decode_members f (<[k := v]> d) r4
                      else if (c3 =? 125)%N then Some (JObj (<[k := v]> d), r4)
                      else None
                  | [] => None
                  end
                else None
            | [] => None
            end
          else None
      | [] => None
      end
  end.

Definition sample_json_loads (doc : str) : option json :=
  '(v, rest) ← decode_value (S (length doc)) doc;
  match skip_space rest with
  | [] => Some v
  | _ => None
  end.

Definition type_name (t : pytype) : str :=
  match t with
  | TNone => lit "NoneType"
  | TBool => lit "bool"
  | TInt => lit "int"
  | TFloat => lit "float"
  | TStr => lit "str"
  | TList => lit "list"
  | TDict => lit "dict"
  end.

(** [str(v)] for [None], a [bool] and an [int]; the other values do not
    reach an f-string in the examples and print as their type name. *)
Definition sample_str_other (v : json) : str :=
  match v with
  | JNull => lit "None"
  | JBool true => lit "True"
  | JBool false => lit "False"
  | JInt z => lit (pretty z)
  | _ => type_name (type_of v)
  end.

(** [str(e)]: the message of a collaborator's exception is the message it
    was raised with; the built-in ones print as CPython words them for the
    operands of the examples. *)
Definition sample_exn_str (e : exn) : str :=
  match e with
  | KeyError (JStr k) => lit "'" ++ k ++ lit "'"
  | KeyError k => sample_str_other k
  | IndexError => lit "list index out of range"
  | TypeError t => lit "'" ++ type_name t ++ lit "' object is not subscriptable"
  | AttributeError t a =>
      lit "'" ++ type_name t ++ lit "' object has no attribute '" ++ a ++ lit "'"
  | JSONDecodeError _ => lit "Expecting value: line 1 column 1 (char 0)"
  | ServiceError msg => msg
  end.

Definition sample_runtime : Runtime :=
  {| json_loads := sample_json_loads;
     str_other := sample_str_other;
     exn_str := sample_exn_str |}.

(** A JSON document written with apostrophes in place of double quotes. *)
Definition jdoc (s : string) : str :=
  map (λ c, if (c =? 39)%N then 34%N else c) (lit s).

(** A character inside a JSON string, as [json.dumps] writes it. *)
Definition escape (c : N) : str :=
  (if (c =? 34) || (c =? 92) then [92; c]
   else if c =? 10 then [92; 110]
   else if c =? 13 then [92; 114]
   else if c =? 9 then [92; 116]
   else [c])%N.

(** The envelope Bedrock wraps the model's text in. *)
Definition envelope (text : str) : str :=
  jdoc "{'output': {'message': {'role': 'assistant', 'content': [{'text': " ++
  dquote ++ flat_map escape text ++ dquote ++
  jdoc "}]}}, 'stopReason': 'end_turn'}".

(** ** Vocabulary of the properties *)

(** A token of [str.split()]: not empty and free of whitespace. *)
Definition token (t : str) : Prop :=
  t ≠ [] ∧ Forall (λ c, isspace c = false) t.

(** A computation that has no loop: it returns or raises. *)
Definition finishes {A} (r : res A) : Prop := r ≠ OutOfFuel.

(** Code with collaborators that has no loop of its own. *)
Definition io_finishes {A} (m : io A) : Prop := ∀ log, finishes (m log).1.

(** A turn whose content is text. *)
Definition text_turn (t : turn) : Prop := ∃ s, content t = JStr s.

(** The dictionary literal appended to [all_chunks], for an enrichment
    dictionary [d]. *)
Definition catalog_entry (i : Z) (source chunk : str) (d : gmap str json)
    : EnrichedChunk :=
  {| ec_id := i;
     ec_source := source;
     ec_text := chunk;
     ec_title := default (JStr []) (d !! lit "title");
     ec_summary := default (JStr []) (d !! lit "summary");
     ec_keywords := default (JArr []) (d !! lit "keywords");
     ec_category := default (JStr (lit "General")) (d !! lit "category");
     ec_importance := default (JInt 5) (d !! lit "importance") |}.

Definition push (st : pipeline_state) (entry : EnrichedChunk) : pipeline_state :=
  {| all_chunks := all_chunks st ++ [entry];
     chunk_id := (chunk_id st + 1)%Z;
     calls := S (calls st) |}.

Section pipeline_vocabulary.
Context `{Runtime}.
Variable bedrock : nat → request → reply str.

(** The entry at position [k] was made by the [k]-th call, from a
    dictionary, and is numbered [k]. *)
Definition enriched_at (k : nat) (c : EnrichedChunk) : Prop :=
  ∃ d, enrich_chunk (bedrock k) (ec_text c) (ec_source c) = Ret (JObj d) ∧
       c = catalog_entry (Z.of_nat k) (ec_source c) (ec_text c) d.

(** The invariant of both loops: the counter is the number of entries, as
    is the number of calls, and every entry is numbered by its position. *)
Definition numbered (st : pipeline_state) : Prop :=
  chunk_id st = len (all_chunks st) ∧
  calls st = length (all_chunks st) ∧
  ∀ k c, all_chunks st !! k = Some c → enriched_at k c.

(** Every enrichment is a dictionary: the condition under which no
    [enriched.get] raises. *)
Definition enrichments_are_dicts : Prop :=
  ∀ n chunk source, ∃ d, enrich_chunk (bedrock n) chunk source = Ret (JObj d).

End pipeline_vocabulary.

(** An embedder that answers with vectors of the collection's size. *)
Definition embeds (encode : str → reply vector) : Prop :=
  ∀ text, ∃ v, encode text = Answer v ∧ len v = 384%Z.


(** ** Concrete documents, replies and collaborators *)

Definition months_text : str :=
  lit "Building a home with us takes twelve months on average.".

Definition months_doc : Document :=
  {| doc_source := lit "faq.pdf"; doc_text := months_text |}.

Definition finance_doc : Document :=
  {| doc_source := lit "finance.pdf";
     doc_text := lit "Metricon offers fixed price contracts and finance options for first home buyers." |}.

(** A text of 400 words. *)
Definition doc400 : str := concat (replicate 400 (lit "home ")).

(** Bedrock out of reach: every call times out. *)
Definition bedrock_timeout : nat → request → reply str :=
  λ _ _, Failure (ServiceError (lit "Read timeout on endpoint URL")).

(** Bedrock whose model answers every request with the same text. *)
Definition bedrock_says (text : str) : nat → request → reply str :=
  λ _ _, Answer (envelope text).

(** The model wraps the object it was asked for in an array. *)
Definition array_reply : str :=
  jdoc "[{'title': 'Build time', 'summary': 'Twelve months on average', 'keywords': ['build'], 'category': 'Building Process', 'importance': 8}]".

(** The model puts the object between code fences. *)
Definition fenced_reply : str :=
  lit "```json" ++ nl ++
  jdoc "{'title': 'Build time', 'importance': 8}" ++ nl ++ lit "```" ++ nl.

(** The model invents a category and leaves the range of the score. *)
Definition pricing_reply : str :=
  jdoc "{'title': 'Pricing', 'summary': 'Price list', 'keywords': [], 'category': 'Pricing', 'importance': 42}".

(** The model leaves out the title, the keywords and the category. *)
Definition partial_reply : str :=
  jdoc "{'summary': 'Twelve months on average', 'importance': 7}".

Definition pricing_entry : EnrichedChunk :=
  {| ec_id := 0;
     ec_source := lit "faq.pdf";
     ec_text := months_text;
     ec_title := JStr (lit "Pricing");
     ec_summary := JStr (lit "Price list");
     ec_keywords := JArr [];
     ec_category := JStr (lit "Pricing");
     ec_importance := JInt 42 |}.

Definition fallback_entry (i : Z) (doc : Document) : EnrichedChunk :=
  {| ec_id := i;
     ec_source := doc_source doc;
     ec_text := doc_text doc;
     ec_title := JStr (lit "General Information");
     ec_summary := JStr (take 100 (doc_text doc));
     ec_keywords := JArr [];
     ec_category := JStr (lit "General");
     ec_importance := JInt 5 |}.

(** Embedders that answer with a constant vector of 384 components. *)
Definition encode_zeros : str → reply vector := λ _, Answer (replicate 384 0%Z).
Definition encode_ones : str → reply vector := λ _, Answer (replicate 384 1%Z).

(** The embedder cannot be reached. *)
Definition services_down : services :=
  {| embedder_encode := λ _, Failure (ServiceError (lit "Connection refused"));
     qdrant_query_points := λ _ _ _, Answer [];
     bedrock_invoke_model := λ _, Answer (envelope (lit "Twelve months.")) |}.

(** The index holds nothing near the question. *)
Definition services_no_match : services :=
  {| embedder_encode := λ _, Answer (replicate 384 0%Z);
     qdrant_query_points := λ _ _ _, Answer [];
     bedrock_invoke_model := λ _, Answer (envelope (lit "Twelve months.")) |}.

Definition build_question : str := lit "How long does construction take?".

Definition earlier_history : list turn :=
  [ user_turn (lit "Hello"); assistant_turn (JStr (lit "Hi, how can I help?")) ].

(** ** chunker.py: [load_pdfs] *)

(** [s.endswith(suffix)]. *)
Definition str_endswith (s suffix : str) : bool := is_prefix (rev suffix) (rev s).

(** An entry of the data folder: its name, and what [PdfReader] gives for
    the file: for each page what [extract_text] returns, [None] included, or
    the exception raised while the file is read. *)
Record folder_entry := {
  entry_name : str;
  entry_pages : reply (list (option str))
}.

(** [page.extract_text() or ""]: [None] counts as the empty text. *)
Definition page_text (page : option str) : str :=
  match page with
  | Some text => text
  | None => []
  end.

(** The body of the loop over [os.listdir(data_folder)]. *)
Definition load_pdf (documents : list Document) (entry : folder_entry)
    : res (list Document) :=
  if str_endswith (entry_name entry) (lit ".pdf") then
    pages ← of_reply (entry_pages entry);
    let text := foldl (λ text page, text ++ page_text page) [] pages in
    Ret (documents ++ [ {| doc_source := entry_name entry;
                           doc_text := str_strip text |} ])
  else Ret documents.

(** [load_pdfs] on what [os.listdir] answers for the data folder. *)
Definition load_pdfs (listing : reply (list folder_entry)) : res (list Document) :=
  entries ← of_reply listing;
  for_each load_pdf entries [].

Section pipeline_on_folder.
Context `{Runtime}.

(** [agentic_chunking_pipeline(data_folder)], from the folder on. *)
Definition agentic_chunking_pipeline_on_folder
    (bedrock : nat → request → reply str) (fuel : nat)
    (listing : reply (list folder_entry)) : res (list EnrichedChunk) :=
  documents ← load_pdfs listing;
  agentic_chunking_pipeline bedrock fuel documents.

End pipeline_on_folder.

(** ** Vocabulary of the further properties *)

Definition is_pdf (entry : folder_entry) : bool :=
  str_endswith (entry_name entry) (lit ".pdf").

(** The document [load_pdfs] makes of a file and its pages. *)
Definition document_of (entry : folder_entry) (pages : list (option str))
    : Document :=
  {| doc_source := entry_name entry;
     doc_text := str_strip (concat (page_text <$> pages)) |}.

(** The [k]-th window of [split_text]: the words from [k * stride] on, up to
    [chunk_size] of them, joined by single spaces. *)
Definition window (words : list str) (chunk_size stride : Z) (k : nat) : str :=
  str_join (lit " ")
    (py_slice words (Z.of_nat k * stride) (Z.of_nat k * stride + chunk_size)).

(** The test a window passes to become a chunk. *)
Definition long_enough (chunk : str) : Prop := (50 < len (str_strip chunk))%Z.

(** The number of windows that start inside [n] words. *)
Definition window_count (n stride : Z) : nat :=
  Z.to_nat ((n + stride - 1) / stride).

(** What [enrich_chunk] does to the model's text before it decodes it. *)
Definition clean_text (raw : str) : str :=
  str_strip (str_replace (lit "```") []
               (str_replace (lit "```json") [] (str_strip raw))).

(** A reply between code fences. *)
Definition fence_json (text : str) : str :=
  lit "```json" ++ nl ++ text ++ nl ++ lit "```".

Definition backtick : N := 96%N.

(** The five metadata fields of a catalog entry are the defaults of the
    [except] branch. *)
Definition default_metadata (c : EnrichedChunk) : Prop :=
  ec_title c = JStr (lit "General Information") ∧
  ec_summary c = JStr (take 100 (ec_text c)) ∧
  ec_keywords c = JArr [] ∧
  ec_category c = JStr (lit "General") ∧
  ec_importance c = JInt 5.

(** The payload keys [rag_answer] reads. *)
Definition rendered_keys : list str :=
  [ lit "category"; lit "title"; lit "text"; lit "source"; lit "importance" ].

(** A point whose payload holds every key [rag_answer] reads. *)
Definition complete_point (p : ScoredPoint) : Prop :=
  ∃ d, payload p = Some d ∧ Forall (λ key, is_Some (d !! key)) rendered_keys.

Section answer_vocabulary.
Context `{Runtime}.

(** A payload field as the f-strings print it. *)
Definition field (p : ScoredPoint) (key : str) : str :=
  format_value (default JNull (payload p ≫= lookup key)).

(** The context chunk of a point: [[category] title], a newline, the text. *)
Definition context_block (p : ScoredPoint) : str :=
  lit "[" ++ field p (lit "category") ++ lit "] " ++ field p (lit "title") ++
  nl ++ field p (lit "text").

(** The source lines of a point. *)
Definition source_block (p : ScoredPoint) : str :=
  page_facing_up ++ lit " **" ++ field p (lit "title") ++ lit "**" ++ nl ++
  open_file_folder ++ lit " " ++ field p (lit "source") ++ lit " | " ++
  label_sign ++ lit " " ++ field p (lit "category") ++ lit " | " ++
  star_sign ++ lit " " ++ field p (lit "importance") ++ lit "/10".

End answer_vocabulary.

(** ** Further concrete data *)

Definition brochure_pages : list (option str) :=
  [ Some (lit "  Building a home with us "); None;
    Some (lit "takes twelve months on average.  ") ].

Definition sample_folder : reply (list folder_entry) :=
  Answer [ {| entry_name := lit "notes.txt";
              entry_pages := Failure (ServiceError (lit "not a PDF")) |};
           {| entry_name := lit "brochure.pdf";
              entry_pages := Answer brochure_pages |} ].

Definition broken_folder : list folder_entry :=
  [ {| entry_name := lit "brochure.pdf"; entry_pages := Answer brochure_pages |};
    {| entry_name := lit "scan.pdf";
       entry_pages := Failure (ServiceError (lit "EOF marker not found")) |};
    {| entry_name := lit "later.pdf"; entry_pages := Answer [] |} ].

Definition faq_point : ScoredPoint :=
  {| payload := Some (<[lit "category" := JStr (lit "FAQ")]>
                     (<[lit "title" := JStr (lit "Build time")]>
                     (<[lit "text" := JStr months_text]>
                     (<[lit "source" := JStr (lit "faq.pdf")]>
                     (<[lit "importance" := JInt 8]> ∅))))) |}.

(** A point stored without its title. *)
Definition untitled_point : ScoredPoint :=
  {| payload := Some (<[lit "category" := JStr (lit "FAQ")]>
                     (<[lit "text" := JStr months_text]> ∅)) |}.

Definition services_with (points : list ScoredPoint) : services :=
  {| embedder_encode := λ _, Answer (replicate 384 0%Z);
     qdrant_query_points := λ _ _ _, Answer points;
     bedrock_invoke_model := λ _, Answer (envelope (lit "Twelve months.")) |}.

(** An embedder that fails on the text of [finance_doc]. *)
Definition encode_until_finance : str → reply vector := λ text,
  if bool_decide (text = lit "General Information " ++
                         take 100 (doc_text finance_doc) ++ lit " " ++
                         doc_text finance_doc)
  then Failure (ServiceError (lit "CUDA out of memory"))
  else Answer (replicate 384 0%Z).

(** ** data_ingestion.py, seen from the server *)

(** The requests [data_ingestion.py] sends to the Qdrant server. *)
Inductive qdrant_request :=
| GetCollections
| DeleteCollection (collection_name : str)
| CreateCollection (collection_name : str) (size : Z)
| Upsert (collection_name : str) (points : list PointStruct).

Definition is_upsert (r : qdrant_request) : bool :=
  match r with
  | Upsert _ _ => true
  | _ => false
  end.

(** The server during a run of the script: the collections it holds and the
    requests it has received. Both are still there when the script raises. *)
Record server := {
  collections : qdrant_state;
  requests : list qdrant_request
}.

(** Code of the script: it returns or raises, and leaves the server as the
    requests sent so far made it. *)
Definition script (A : Type) : Type := server → res A * server.

#[global] Instance script_ret : MRet script := λ A a srv, (Ret a, srv).

#[global] Instance script_bind : MBind script := λ A B k m srv,
  match m srv with
  | (Ret a, srv') => k a srv'
  | (Raise e, srv') => (Raise e, srv')
  | (OutOfFuel, srv') => (OutOfFuel, srv')
  end.

(** A request that changes the collections. One the server refuses is
    received and changes nothing. *)
Definition send (r : qdrant_request) (op : qdrant_state → res qdrant_state)
    : script () :=
  λ srv,
    let received := requests srv ++ [r] in
    match op (collections srv) with
    | Ret q => (Ret (), {| collections := q; requests := received |})
    | Raise e =>
        (Raise e, {| collections := collections srv; requests := received |})
    | OutOfFuel =>
        (OutOfFuel, {| collections := collections srv; requests := received |})
    end.

(** [qdrant.get_collections()]: the names of the collections. *)
Definition get_collections : script (gset str) :=
  λ srv, (Ret (dom (collections srv)),
          {| collections := collections srv;
             requests := requests srv ++ [GetCollections] |}).

(** Code of the script that sends no request. *)
Definition offline {A} (r : res A) : script A := λ srv, (r, srv).

(** [create_collection], [ingest_chunks] and the script, request by
    request. *)
Definition create_collection_on_server : script () :=
  existing ← get_collections;
  (if bool_decide (COLLECTION ∈ existing)
   then send (DeleteCollection COLLECTION)
             (qdrant_delete_collection COLLECTION)
   else mret ());;
  send (CreateCollection COLLECTION 384)
       (qdrant_create_collection COLLECTION 384).

Section ingestion_on_server.
Context `{Runtime}.

Variable encode : str → reply vector.

Definition ingest_chunks_on_server (chunks : list EnrichedChunk) : script () :=
  points ← offline (for_each (ingest_chunk encode) chunks []);
  send (Upsert COLLECTION points) (qdrant_upsert COLLECTION points).

Definition data_ingestion_on_server (chunks : list EnrichedChunk) : script () :=
  create_collection_on_server;;
  ingest_chunks_on_server chunks.

End ingestion_on_server.

(** What a run hands on: the collections it leaves when it returns, its
    exception when it raises. *)
Definition outcome (r : res () * server) : res qdrant_state :=
  match r.1 with
  | Ret _ => Ret (collections r.2)
  | Raise e => Raise e
  | OutOfFuel => OutOfFuel
  end.

(** * Properties *)

(** ** Strings *)

Lemma token_rev t : token t → token (rev t).
Proof.
  intros [Hne Hall]. split.
  - intros Hr. apply Hne. by rewrite <- (rev_involutive t), Hr.
  - apply Forall_forall. intros c Hc. rewrite Forall_forall in Hall.
    apply Hall. apply list_elem_of_In. apply list_elem_of_In in Hc.
    by apply in_rev.
Qed.

Lemma str_split_aux_tokens s : ∀ cur,
  Forall (λ c, isspace c = false) cur →
  Forall token (str_split_aux cur s).
Proof.
  induction s as [|c s IH]; intros cur Hcur; simpl.
  - destruct cur as [|a cur]; [constructor|].
    constructor; [|constructor]. by apply token_rev.
  - destruct (isspace c) eqn:Hc.
    + destruct cur as [|a cur].
      * apply IH. constructor.
      * constructor; [by apply token_rev|]. apply IH. constructor.
    + apply IH. by constructor.
Qed.

Lemma str_split_tokens text : Forall token (str_split text).
Proof. apply str_split_aux_tokens. constructor. Qed.

Lemma str_lstrip_id c s : isspace c = false → str_lstrip (c :: s) = c :: s.
Proof. intros Hc. simpl. by rewrite Hc. Qed.

Lemma str_join_head sep t ws :
  token t → ∃ c s, isspace c = false ∧ str_join sep (t :: ws) = c :: s.
Proof.
  intros [Hne Hall]. destruct t as [|c t]; [done|].
  apply Forall_cons in Hall as [Hc _]. exists c.
  destruct ws; simpl; eauto.
Qed.

Lemma str_join_last sep ws :
  ws ≠ [] → Forall token ws →
  ∃ s c, isspace c = false ∧ str_join sep ws = s ++ [c].
Proof.
  induction ws as [|t ws IH]; [done|]. intros _ Hall.
  apply Forall_cons in Hall as [Ht Hws].
  destruct ws as [|t' ws].
  - simpl. destruct (token_rev t Ht) as [Hne Hall].
    destruct (rev t) as [|c r] eqn:Hr; [done|].
    apply Forall_cons in Hall as [Hc _].
    exists (rev r), c. split; [done|].
    rewrite <- (rev_involutive t), Hr. done.
  - destruct IH as (s & c & Hc & Hs); [done|done|].
    exists (t ++ sep ++ s), c. split; [done|].
    change (str_join sep (t :: t' :: ws))
      with (t ++ sep ++ str_join sep (t' :: ws)).
    rewrite Hs. by rewrite <- !app_assoc.
Qed.

(** Joined tokens have no whitespace to strip at either end. *)
Lemma str_strip_join sep ws :
  Forall token ws → str_strip (str_join sep ws) = str_join sep ws.
Proof.
  intros Hall. destruct ws as [|t ws]; [done|].
  pose proof Hall as Hall'. apply Forall_cons in Hall' as [Ht _].
  destruct (str_join_head sep t ws Ht) as (c & s & Hc & Hj).
  destruct (str_join_last sep (t :: ws)) as (s' & c' & Hc' & Hj'); [done|done|].
  unfold str_strip. rewrite Hj, (str_lstrip_id _ _ Hc), <- Hj, Hj'.
  rewrite rev_app_distr. simpl. rewrite Hc'. simpl.
  by rewrite rev_involutive.
Qed.

(** [n] tokens joined by a one-character separator take at least [2n - 1]
    characters. *)
Lemma str_join_length c ws :
  Forall token ws → 2 * length ws - 1 ≤ length (str_join [c] ws).
Proof.
  induction ws as [|t ws IH]; intros Hall; [simpl; lia|].
  apply Forall_cons in Hall as [[Hne _] Hws].
  assert (1 ≤ length t) by (destruct t; [done|simpl; lia]).
  destruct ws as [|t' ws]; [simpl; lia|].
  change (str_join [c] (t :: t' :: ws))
    with (t ++ [c] ++ str_join [c] (t' :: ws)).
  rewrite !length_app. specialize (IH Hws). simpl in *. lia.
Qed.

Lemma adjust_index_nonneg n i : (0 ≤ i)%Z → adjust_index n i = Z.min i n.
Proof.
  intros Hi. unfold adjust_index. destruct (Z.ltb_spec i 0); [lia|done].
Qed.

Lemma py_slice_all {A} (l : list A) (hi : Z) :
  (len l ≤ hi)%Z → py_slice l 0 hi = l.
Proof.
  intros Hhi. unfold py_slice. unfold len in *.
  rewrite !adjust_index_nonneg by lia.
  rewrite (Z.min_l 0), (Z.min_r hi) by lia.
  rewrite Z.sub_0_r, Nat2Z.id. simpl. apply firstn_all.
Qed.

Lemma py_slice_tail {A} (l : list A) (lo hi : Z) :
  (0 ≤ lo)%Z → (lo ≤ len l)%Z → (len l ≤ hi)%Z →
  py_slice l lo hi = drop (Z.to_nat lo) l.
Proof.
  intros Hlo Hlen Hhi. unfold py_slice. unfold len in *.
  rewrite !adjust_index_nonneg by lia.
  rewrite (Z.min_l lo), (Z.min_r hi) by lia.
  apply take_ge. rewrite length_drop. lia.
Qed.

Lemma py_slice_prefix {A} (l : list A) (n : nat) :
  py_slice l 0 (Z.of_nat n) = take n l.
Proof.
  unfold py_slice, len. rewrite !adjust_index_nonneg by lia.
  rewrite (Z.min_l 0) by lia. rewrite Z.sub_0_r.
  change (Z.to_nat 0) with 0. rewrite drop_0.
  destruct (decide (n ≤ length l)) as [Hle|Hgt].
  - rewrite Z.min_l by lia. by rewrite Nat2Z.id.
  - rewrite Z.min_r by lia. rewrite Nat2Z.id.
    rewrite !take_ge; [done|lia|lia].
Qed.

(** ** [split_text] *)

Lemma split_text_loop_step fuel words cs ov start chunks :
  split_text_loop (S fuel) words cs ov start chunks =
  if (start <? len words)%Z then
    split_text_loop fuel words cs ov (start + (cs - ov))%Z
      (if (50 <? len (str_strip (str_join (lit " ")
                                   (py_slice words start (start + cs)))))%Z
       then chunks ++ [str_join (lit " ") (py_slice words start (start + cs))]
       else chunks)
  else Ret chunks.
Proof. reflexivity. Qed.


(** More fuel does not change a result. *)
Lemma split_text_loop_extra fuel extra : ∀ words cs ov start chunks r,
  split_text_loop fuel words cs ov start chunks = Ret r →
  split_text_loop (fuel + extra) words cs ov start chunks = Ret r.
Proof.
  induction fuel as [|fuel IH]; intros words cs ov start chunks r; [done|].
  change (S fuel + extra) with (S (fuel + extra)).
  rewrite !split_text_loop_step.
  destruct (start <? len words)%Z; [apply IH|done].
Qed.

(** With a positive stride the loop ends within the number of words still
    ahead of [start], plus the final test. *)
Lemma split_text_loop_terminates fuel : ∀ words cs ov start chunks,
  (ov < cs)%Z → Z.to_nat (len words - start) < fuel →
  ∃ r, split_text_loop fuel words cs ov start chunks = Ret r.
Proof.
  induction fuel as [|fuel IH]; intros words cs ov start chunks Hpos Hfuel; [lia|].
  rewrite split_text_loop_step.
  destruct (start <? len words)%Z eqn:Hlt; [|eauto].
  apply IH; [done|]. apply Z.ltb_lt in Hlt. lia.
Qed.


(** ** The error monad *)

Lemma ret_two_ne_one {A} (a b c : A) : Ret [a; b] ≠ Ret [c].
Proof. intros Heq. inversion Heq. Qed.

Lemma bind_ret {A B} (a : A) (k : A → res B) : Ret a ≫= k = k a.
Proof. reflexivity. Qed.

Lemma bind_ret_inv {A B} (m : res A) (k : A → res B) b :
  m ≫= k = Ret b → ∃ a, m = Ret a ∧ k a = Ret b.
Proof. destruct m; simpl; [eauto|done|done]. Qed.

Create HintDb finishes discriminated.

Lemma finishes_ret {A} (a : A) : finishes (Ret a).
Proof. done. Qed.

Lemma finishes_raise {A} e : finishes (@Raise A e).
Proof. done. Qed.

Lemma finishes_bind {A B} (m : res A) (k : A → res B) :
  finishes m → (∀ a, finishes (k a)) → finishes (m ≫= k).
Proof. intros Hm Hk. destruct m; simpl; [apply Hk|done|done]. Qed.

Lemma finishes_try_except {A} (body : res A) handler :
  finishes body → (∀ e, ∃ a, handler e = Ret a) →
  ∃ a, try_except body handler = Ret a.
Proof.
  intros Hb Hh. destruct body as [a|e|]; simpl; [eauto|apply Hh|done].
Qed.

#[export] Hint Resolve finishes_ret finishes_raise : finishes.

(** Splits a sequence of steps into its steps. *)
Ltac finishes_steps :=
  repeat (apply finishes_bind; [|intros ?]); auto with finishes.

Lemma for_each_cons {A S} (body : S → A → res S) x xs s :
  for_each body (x :: xs) s = body s x ≫= for_each body xs.
Proof. reflexivity. Qed.

Lemma for_each_ret_inv {A S} (body : S → A → res S) x xs s s' :
  for_each body (x :: xs) s = Ret s' →
  ∃ s1, body s x = Ret s1 ∧ for_each body xs s1 = Ret s'.
Proof. simpl. apply bind_ret_inv. Qed.

(** What a loop body preserves, the loop preserves. *)
Lemma for_each_invariant {A S} (P : S → Prop) (body : S → A → res S) xs :
  (∀ s x s', P s → body s x = Ret s' → P s') →
  ∀ s s', P s → for_each body xs s = Ret s' → P s'.
Proof.
  intros Hbody. induction xs as [|x xs IH]; intros s s' Hs Hrun.
  - simpl in Hrun. by inversion Hrun; subst.
  - apply for_each_ret_inv in Hrun as (s1 & H1 & Hrest). eauto.
Qed.

Section values_facts.
Context `{Runtime}.

Lemma finishes_of_reply {A} (r : reply A) : finishes (of_reply r).
Proof. by destruct r. Qed.

Lemma finishes_loads doc : finishes (loads doc).
Proof. unfold loads. by destruct (json_loads doc). Qed.

Lemma finishes_getitem v key : finishes (getitem v key).
Proof. destruct v; simpl; try done. by destruct (d !! key). Qed.

Lemma finishes_getitem0 v : finishes (getitem0 v).
Proof. destruct v as [| | | |[|]|[|]|]; done. Qed.

Lemma finishes_method_strip v : finishes (method_strip v).
Proof. by destruct v. Qed.

Lemma finishes_method_get v key dflt : finishes (method_get v key dflt).
Proof. by destruct v. Qed.

#[local] Hint Resolve finishes_of_reply finishes_loads finishes_getitem
  finishes_getitem0 finishes_method_strip finishes_method_get : finishes.

Lemma finishes_message_text output : finishes (message_text output).
Proof. unfold message_text. finishes_steps. Qed.

End values_facts.

#[export] Hint Resolve finishes_of_reply finishes_loads finishes_getitem
  finishes_getitem0 finishes_method_strip finishes_method_get
  finishes_message_text : finishes.

(** ** [enrich_chunk] *)

Section enrich_facts.
Context `{Runtime}.

Lemma finishes_enrich_try invoke_model chunk_text :
  finishes (enrich_try invoke_model chunk_text).
Proof. unfold enrich_try. finishes_steps. Qed.

(** [enrich_chunk] returns: an exception of the [try] block never leaves it. *)
Lemma enrich_chunk_returns invoke_model chunk_text source :
  ∃ enriched, enrich_chunk invoke_model chunk_text source = Ret enriched.
Proof.
  apply finishes_try_except; [apply finishes_enrich_try|eauto].
Qed.

(** Whatever is raised in the [try] block, the result is the default
    dictionary. *)
Lemma enrich_chunk_fallback invoke_model chunk_text source e :
  enrich_try invoke_model chunk_text = Raise e →
  enrich_chunk invoke_model chunk_text source = Ret (fallback_metadata chunk_text).
Proof. intros Htry. unfold enrich_chunk. by rewrite Htry. Qed.

(** What the [try] block returns is returned as it is. *)
Lemma enrich_chunk_decoded invoke_model chunk_text source enriched :
  enrich_try invoke_model chunk_text = Ret enriched →
  enrich_chunk invoke_model chunk_text source = Ret enriched.
Proof. intros Htry. unfold enrich_chunk. by rewrite Htry. Qed.

(** A failing call is one way into the [except] branch. *)
Lemma enrich_try_call_fails invoke_model chunk_text e :
  invoke_model (enrich_request chunk_text) = Failure e →
  enrich_try invoke_model chunk_text = Raise e.
Proof. intros Hcall. unfold enrich_try. by rewrite Hcall. Qed.

(** A response body that is not JSON is another. *)
Lemma enrich_try_body_not_json invoke_model chunk_text body :
  invoke_model (enrich_request chunk_text) = Answer body →
  json_loads body = None →
  enrich_try invoke_model chunk_text = Raise (JSONDecodeError body).
Proof.
  intros Hcall Hbody. unfold enrich_try, loads. rewrite Hcall. simpl.
  by rewrite Hbody.
Qed.

(** A model text that is not JSON once the fences are removed is a third. *)
Lemma enrich_try_text_not_json invoke_model chunk_text body output raw :
  invoke_model (enrich_request chunk_text) = Answer body →
  json_loads body = Some output →
  message_text output = Ret (JStr raw) →
  let cleaned := str_strip (str_replace (lit "```") []
                   (str_replace (lit "```json") [] (str_strip raw))) in
  json_loads cleaned = None →
  enrich_try invoke_model chunk_text = Raise (JSONDecodeError cleaned).
Proof.
  intros Hcall Hbody Htext cleaned Hraw. unfold enrich_try, loads.
  rewrite Hcall. simpl. rewrite Hbody. simpl. rewrite Htext. simpl.
  fold cleaned. by rewrite Hraw.
Qed.

Lemma fallback_lookup chunk_text :
  ∃ d, fallback_metadata chunk_text = JObj d ∧
    d !! lit "title" = Some (JStr (lit "General Information")) ∧
    d !! lit "summary" = Some (JStr (take 100 chunk_text)) ∧
    d !! lit "keywords" = Some (JArr []) ∧
    d !! lit "category" = Some (JStr (lit "General")) ∧
    d !! lit "importance" = Some (JInt 5).
Proof.
  eexists. split; [reflexivity|].
  pose proof (py_slice_prefix chunk_text 100) as Hslice.
  change (Z.of_nat 100) with 100%Z in Hslice. rewrite Hslice.
  repeat split.
Qed.

End enrich_facts.

(** ** [agentic_chunking_pipeline] *)

Lemma lookup_index_map {A B} (f : A → B) (g : nat → B) (l : list A) :
  (∀ k a, l !! k = Some a → f a = g k) →
  map f l = g <$> seq 0 (length l).
Proof.
  intros Hfg. apply list_eq. intros k.
  change (map f l) with (f <$> l). rewrite !list_lookup_fmap.
  destruct (l !! k) as [a|] eqn:Hk; simpl.
  - rewrite (lookup_seq_lt 0 (length l) k) by (by eapply lookup_lt_Some).
    simpl. f_equal. by apply Hfg.
  - rewrite (lookup_seq_ge 0 (length l) k) by (by apply lookup_ge_None).
    done.
Qed.

Section pipeline_facts.
Context `{Runtime}.
Variable bedrock : nat → request → reply str.

(** An enrichment that is a dictionary becomes a catalog entry. *)
Lemma pipeline_chunk_dict source st chunk d :
  enrich_chunk (bedrock (calls st)) chunk source = Ret (JObj d) →
  pipeline_chunk bedrock source st chunk =
  Ret (push st (catalog_entry (chunk_id st) source chunk d)).
Proof. intros Henrich. unfold pipeline_chunk. by rewrite Henrich. Qed.

(** An enrichment that is no dictionary has no [get]. *)
Lemma pipeline_chunk_not_dict source st chunk v :
  enrich_chunk (bedrock (calls st)) chunk source = Ret v →
  (∀ d, v ≠ JObj d) →
  pipeline_chunk bedrock source st chunk =
  Raise (AttributeError (type_of v) (lit "get")).
Proof.
  intros Henrich Hv. unfold pipeline_chunk. rewrite Henrich.
  destruct v; try done. by destruct (Hv d).
Qed.

Lemma pipeline_chunk_ret_inv source st chunk st' :
  pipeline_chunk bedrock source st chunk = Ret st' →
  ∃ d, enrich_chunk (bedrock (calls st)) chunk source = Ret (JObj d) ∧
       st' = push st (catalog_entry (chunk_id st) source chunk d).
Proof.
  intros Hstep.
  destruct (enrich_chunk_returns (bedrock (calls st)) chunk source) as [v Hv].
  destruct v as [| | | | | |d];
    try (rewrite (pipeline_chunk_not_dict _ _ _ _ Hv) in Hstep; done).
  rewrite (pipeline_chunk_dict _ _ _ _ Hv) in Hstep.
  inversion Hstep. eauto.
Qed.

Lemma numbered_initial : numbered bedrock initial_state.
Proof.
  repeat split. intros k c Hk. simpl in Hk. by rewrite lookup_nil in Hk.
Qed.

Lemma pipeline_chunk_numbered source st chunk st' :
  numbered bedrock st →
  pipeline_chunk bedrock source st chunk = Ret st' →
  numbered bedrock st'.
Proof.
  intros (Hid & Hcalls & Hall) Hstep.
  apply pipeline_chunk_ret_inv in Hstep as (d & Henrich & ->).
  unfold numbered, push, len in *. simpl. rewrite length_app. simpl.
  split; [lia|]. split; [lia|].
  intros k c Hk. apply lookup_app_Some in Hk as [Hk|[Hge Hk]]; [by apply Hall|].
  destruct (k - length (all_chunks st)) as [|n] eqn:Hn; [|done].
  simpl in Hk. inversion Hk; subst c.
  assert (k = length (all_chunks st)) as -> by lia.
  exists d. simpl. rewrite <- Hcalls, Henrich. split; [done|].
  rewrite Hid. by rewrite Hcalls.
Qed.

Lemma pipeline_document_numbered fuel st doc st' :
  numbered bedrock st →
  pipeline_document bedrock fuel st doc = Ret st' →
  numbered bedrock st'.
Proof.
  intros Hst Hdoc. unfold pipeline_document in Hdoc.
  apply bind_ret_inv in Hdoc as (raw_chunks & _ & Hloop).
  eapply (for_each_invariant (numbered bedrock)); [|exact Hst|exact Hloop].
  intros s x s'. apply pipeline_chunk_numbered.
Qed.

(** The inner loop appends one entry per raw chunk, in order. *)
Lemma pipeline_chunks_texts source chunks : ∀ st st',
  for_each (pipeline_chunk bedrock source) chunks st = Ret st' →
  map ec_text (all_chunks st') = map ec_text (all_chunks st) ++ chunks.
Proof.
  induction chunks as [|chunk chunks IH]; intros st st' Hloop.
  - simpl in Hloop. inversion Hloop. by rewrite app_nil_r.
  - apply for_each_ret_inv in Hloop as (s1 & Hstep & Hrest).
    apply pipeline_chunk_ret_inv in Hstep as (d & _ & ->).
    rewrite (IH _ _ Hrest). simpl. rewrite map_app. simpl.
    by rewrite <- app_assoc.
Qed.

(** The outer loop appends the raw chunks of each document, in order. *)
Lemma pipeline_documents_texts fuel docs : ∀ st st',
  for_each (pipeline_document bedrock fuel) docs st = Ret st' →
  ∃ raw : list (list str),
    Forall2 (λ doc chunks,
      split_text fuel (doc_text doc) default_chunk_size default_overlap
      = Ret chunks) docs raw ∧
    map ec_text (all_chunks st') = map ec_text (all_chunks st) ++ concat raw.
Proof.
  induction docs as [|doc docs IH]; intros st st' Hloop.
  - simpl in Hloop. inversion Hloop. exists []. split; [constructor|].
    by rewrite app_nil_r.
  - apply for_each_ret_inv in Hloop as (s1 & Hdoc & Hrest).
    unfold pipeline_document in Hdoc.
    apply bind_ret_inv in Hdoc as (chunks & Hsplit & Hinner).
    destruct (IH _ _ Hrest) as (raw & Hraw & Htexts).
    exists (chunks :: raw). split; [by constructor|].
    rewrite Htexts, (pipeline_chunks_texts _ _ _ _ Hinner). simpl.
    by rewrite <- app_assoc.
Qed.

Lemma pipeline_chunks_return source chunks :
  enrichments_are_dicts bedrock →
  ∀ st, ∃ st', for_each (pipeline_chunk bedrock source) chunks st = Ret st'.
Proof.
  intros Hdict. induction chunks as [|chunk chunks IH]; intros st; [by eexists|].
  destruct (Hdict (calls st) chunk source) as [d Hd].
  rewrite for_each_cons, (pipeline_chunk_dict _ _ _ _ Hd), bind_ret. apply IH.
Qed.

Lemma pipeline_documents_return fuel docs :
  enrichments_are_dicts bedrock →
  Forall (λ doc, length (str_split (doc_text doc)) < fuel) docs →
  ∀ st, ∃ st', for_each (pipeline_document bedrock fuel) docs st = Ret st'.
Proof.
  intros Hdict Hfuel. induction Hfuel as [|doc docs Hdoc _ IH]; intros st;
    [by eexists|].
  destruct (split_text_loop_terminates fuel (str_split (doc_text doc))
              default_chunk_size default_overlap 0 []) as [chunks Hsplit];
    [done|unfold len; lia|].
  destruct (pipeline_chunks_return (doc_source doc) chunks Hdict st) as [s1 Hs1].
  assert (Hstep : pipeline_document bedrock fuel st doc = Ret s1).
  { unfold pipeline_document, split_text. by rewrite Hsplit, bind_ret. }
  rewrite for_each_cons, Hstep, bind_ret. apply IH.
Qed.

Lemma pipeline_catalog fuel docs catalog :
  agentic_chunking_pipeline bedrock fuel docs = Ret catalog →
  (∀ k c, catalog !! k = Some c → enriched_at bedrock k c) ∧
  ∃ raw : list (list str),
    Forall2 (λ doc chunks,
      split_text fuel (doc_text doc) default_chunk_size default_overlap
      = Ret chunks) docs raw ∧
    map ec_text catalog = concat raw.
Proof.
  intros Hrun. unfold agentic_chunking_pipeline in Hrun.
  apply bind_ret_inv in Hrun as (st & Hloop & Hret). inversion Hret; subst.
  split.
  - eapply (for_each_invariant (numbered bedrock));
      [|exact numbered_initial|exact Hloop].
    intros s x s'. apply pipeline_document_numbered.
  - by apply pipeline_documents_texts in Hloop.
Qed.

End pipeline_facts.

(** ** data_ingestion.py *)

Lemma index_payload_lookup (q : qdrant_state) c i :
  q !! COLLECTION = Some c →
  index_payload q i = pt_payload <$> coll_points c !! i.
Proof.
  intros Hc. unfold index_payload. rewrite Hc. simpl.
  by destruct (coll_points c !! i).
Qed.

(** Upserting two batches that agree on ids and payloads, into point sets
    that agree on payloads, leaves point sets that agree on payloads. *)
Lemma upsert_payloads pts : ∀ pts' (m m' : gmap Z PointStruct),
  map pt_id pts = map pt_id pts' →
  map pt_payload pts = map pt_payload pts' →
  (∀ i, pt_payload <$> m !! i = pt_payload <$> m' !! i) →
  ∀ i, pt_payload <$> foldl upsert_point m pts !! i
       = pt_payload <$> foldl upsert_point m' pts' !! i.
Proof.
  induction pts as [|p pts IH]; intros [|p' pts'] m m' Hids Hpay Hm; try done.
  simpl in *. inversion Hids as [[Hid Hids']]. inversion Hpay as [[Hp Hpay']].
  apply IH; [done|done|]. intros i. unfold upsert_point.
  rewrite !lookup_insert, Hid. case_decide; simpl; [by rewrite Hp|apply Hm].
Qed.

Lemma upsert_ids pts : ∀ m : gmap Z PointStruct,
  dom (foldl upsert_point m pts) = dom m ∪ list_to_set (map pt_id pts).
Proof.
  induction pts as [|p pts IH]; intros m; simpl.
  - by rewrite union_empty_r_L.
  - rewrite IH. unfold upsert_point.
    by rewrite dom_insert_L, (union_comm_L {[pt_id p]}), union_assoc_L.
Qed.

(** A point found after a batch is the point of the batch stored under its
    id, or was there before. *)
Lemma upsert_lookup pts : ∀ (m : gmap Z PointStruct) i p,
  foldl upsert_point m pts !! i = Some p →
  (p ∈ pts ∧ pt_id p = i) ∨ m !! i = Some p.
Proof.
  induction pts as [|p0 pts IH]; intros m i p Hp; [by right|].
  simpl in Hp. apply IH in Hp as [[Hin Hid]|Hm].
  - left. split; [by apply elem_of_cons; right|done].
  - unfold upsert_point in Hm. rewrite lookup_insert in Hm.
    case_decide as Hi; [|by right].
    inversion Hm; subst p0. left. split; [by apply elem_of_cons; left|done].
Qed.

(** [create_collection] leaves an empty collection of size 384, whatever
    was there. *)
Lemma create_collection_ret (q : qdrant_state) :
  create_collection q =
  Ret (<[COLLECTION := {| coll_size := 384; coll_points := ∅ |}]>
         (delete COLLECTION q)).
Proof.
  unfold create_collection. case_bool_decide as Hin.
  - unfold qdrant_delete_collection. rewrite bind_ret.
    unfold qdrant_create_collection. by rewrite lookup_delete_eq.
  - rewrite bind_ret. unfold qdrant_create_collection.
    apply not_elem_of_dom in Hin. rewrite Hin.
    by rewrite delete_id.
Qed.

Section ingestion_facts.
Context `{Runtime}.

(** The loop over the catalog keeps each chunk's id and payload; only the
    vector comes from the embedder. *)
Lemma ingest_points encode chunks : ∀ acc points,
  for_each (ingest_chunk encode) chunks acc = Ret points →
  map pt_id points = map pt_id acc ++ map ec_id chunks ∧
  map pt_payload points = map pt_payload acc ++ map chunk_payload chunks ∧
  map pt_vector points = map pt_vector acc ++
    omap (λ c, match encode (text_to_embed c) with
               | Answer v => Some v
               | Failure _ => None
               end) chunks ∧
  length points = length acc + length chunks.
Proof.
  induction chunks as [|chunk chunks IH]; intros acc points Hloop.
  - simpl in Hloop. inversion Hloop. simpl. by rewrite !app_nil_r, Nat.add_0_r.
  - apply for_each_ret_inv in Hloop as (acc1 & Hstep & Hrest).
    unfold ingest_chunk in Hstep.
    destruct (encode (text_to_embed chunk)) as [v|e] eqn:Hv; [|done].
    simpl in Hstep. inversion Hstep; subst acc1. clear Hstep.
    destruct (IH _ _ Hrest) as (Hids & Hpay & Hvec & Hlen).
    rewrite Hids, Hpay, Hvec, Hlen, !map_app, length_app. simpl. rewrite Hv.
    rewrite <- !app_assoc. simpl. repeat split; lia.
Qed.

(** Each point of the batch is a chunk of the catalog with its id, its
    payload and the embedding of its composite text. *)
Lemma ingest_points_origin encode chunks : ∀ acc points,
  for_each (ingest_chunk encode) chunks acc = Ret points →
  ∀ p, p ∈ points →
    p ∈ acc ∨
    ∃ c, c ∈ chunks ∧ pt_id p = ec_id c ∧ pt_payload p = chunk_payload c ∧
         encode (text_to_embed c) = Answer (pt_vector p).
Proof.
  induction chunks as [|chunk chunks IH]; intros acc points Hloop p Hp.
  - simpl in Hloop. inversion Hloop; subst. by left.
  - apply for_each_ret_inv in Hloop as (acc1 & Hstep & Hrest).
    unfold ingest_chunk in Hstep.
    destruct (encode (text_to_embed chunk)) as [v|e] eqn:Hv; [|done].
    simpl in Hstep. inversion Hstep; subst acc1. clear Hstep.
    destruct (IH _ _ Hrest p Hp) as [Hacc|(c & Hc & Hrel)].
    + apply elem_of_app in Hacc as [Hacc|Hnew]; [by left|].
      apply list_elem_of_singleton in Hnew. subst p. right.
      exists chunk. split; [by apply elem_of_cons; left|]. by simpl.
    + right. exists c. split; [by apply elem_of_cons; right|done].
Qed.

(** What one build leaves under the collection's name. *)
Lemma data_ingestion_ret_inv (encode : str → reply vector)
    (chunks : list EnrichedChunk) (q q' : qdrant_state) :
  data_ingestion encode chunks q = Ret q' →
  ∃ points,
    for_each (ingest_chunk encode) chunks [] = Ret points ∧
    q' !! COLLECTION =
      Some {| coll_size := 384; coll_points := foldl upsert_point ∅ points |}.
Proof.
  intros Hrun. unfold data_ingestion in Hrun.
  rewrite create_collection_ret, bind_ret in Hrun. unfold ingest_chunks in Hrun.
  apply bind_ret_inv in Hrun as (points & Hpoints & Hupsert).
  exists points. split; [done|].
  unfold qdrant_upsert in Hupsert. rewrite lookup_insert_eq in Hupsert.
  destruct (forallb _ points); [|done]. inversion Hupsert. simpl.
  by rewrite lookup_insert_eq.
Qed.

Lemma ingest_points_return encode chunks :
  embeds encode →
  ∀ acc, Forall (λ p, len (pt_vector p) = 384%Z) acc →
  ∃ points, for_each (ingest_chunk encode) chunks acc = Ret points ∧
            Forall (λ p, len (pt_vector p) = 384%Z) points.
Proof.
  intros Henc. induction chunks as [|chunk chunks IH]; intros acc Hacc;
    [by eexists|].
  destruct (Henc (text_to_embed chunk)) as (v & Hv & Hlen).
  assert (Hstep : ingest_chunk encode acc chunk =
            Ret (acc ++ [ {| pt_id := ec_id chunk; pt_vector := v;
                             pt_payload := chunk_payload chunk |} ])).
  { unfold ingest_chunk. by rewrite Hv. }
  rewrite for_each_cons, Hstep, bind_ret.
  apply IH. apply Forall_app. split; [done|]. by repeat constructor.
Qed.

Lemma data_ingestion_returns (encode : str → reply vector)
    (chunks : list EnrichedChunk) (q : qdrant_state) :
  embeds encode → ∃ q', data_ingestion encode chunks q = Ret q'.
Proof.
  intros Henc. unfold data_ingestion.
  rewrite create_collection_ret, bind_ret. unfold ingest_chunks.
  destruct (ingest_points_return encode chunks Henc [] ) as (points & -> & Hall);
    [constructor|].
  rewrite bind_ret. unfold qdrant_upsert. rewrite lookup_insert_eq.
  cbn [coll_size coll_points].
  assert (forallb (λ p, (len (pt_vector p) =? 384)%Z) points = true) as ->.
  { apply forallb_forall. intros p Hp. apply Z.eqb_eq.
    rewrite Forall_forall in Hall. apply Hall. by apply list_elem_of_In. }
  by eexists.
Qed.

End ingestion_facts.

(** ** [rag_answer] *)

Lemma io_bind_unfold {A B} (m : io A) (k : A → io B) log :
  (m ≫= k) log =
  match m log with
  | (Ret a, log') => k a log'
  | (Raise e, log') => (Raise e, log')
  | (OutOfFuel, log') => (OutOfFuel, log')
  end.
Proof. reflexivity. Qed.

Lemma io_bind_ret_inv {A B} (m : io A) (k : A → io B) log b log' :
  (m ≫= k) log = (Ret b, log') →
  ∃ a log1, m log = (Ret a, log1) ∧ k a log1 = (Ret b, log').
Proof.
  rewrite io_bind_unfold. destruct (m log) as [[a|e|] log1]; [eauto|done|done].
Qed.

Lemma io_finishes_bind {A B} (m : io A) (k : A → io B) :
  io_finishes m → (∀ a, io_finishes (k a)) → io_finishes (m ≫= k).
Proof.
  intros Hm Hk log. rewrite io_bind_unfold. specialize (Hm log).
  destruct (m log) as [[a|e|] log1]; simpl in *; [apply Hk|done|done].
Qed.

Lemma io_finishes_ret {A} (a : A) : io_finishes (mret a).
Proof. by intros log. Qed.

Lemma io_finishes_external {A} c (r : reply A) : io_finishes (external c r).
Proof. intros log. simpl. apply finishes_of_reply. Qed.

Lemma io_finishes_internal {A} (r : res A) : finishes r → io_finishes (internal r).
Proof. by intros Hr log. Qed.

Lemma finishes_for_each {A S} (body : S → A → res S) xs :
  (∀ s x, finishes (body s x)) → ∀ s, finishes (for_each body xs s).
Proof.
  intros Hbody. induction xs as [|x xs IH]; intros s; [done|].
  rewrite for_each_cons. by apply finishes_bind.
Qed.

Section answer_facts.
Context `{Runtime}.

Lemma finishes_render_point acc p : finishes (render_point acc p).
Proof. unfold render_point. finishes_steps. Qed.

Lemma io_finishes_rag_try svc question history top_k show_sources :
  io_finishes (rag_try svc question history top_k show_sources).
Proof.
  unfold rag_try.
  apply io_finishes_bind; [apply io_finishes_external|intros query_vec].
  apply io_finishes_bind; [apply io_finishes_external|intros points].
  destruct points as [|p points]; [apply io_finishes_ret|].
  repeat (apply io_finishes_bind; [|intros ?]);
    try apply io_finishes_external; try apply io_finishes_ret;
    apply io_finishes_internal; auto with finishes.
  apply finishes_for_each, finishes_render_point.
Qed.

(** When the [try] block returns, it returns the history with the
    question and one assistant turn appended. *)
Lemma rag_try_ret_inv svc question history top_k show_sources log r log' :
  rag_try svc question history top_k show_sources log = (Ret r, log') →
  ∃ answer, r.1 = history ++ [user_turn question; assistant_turn answer].
Proof.
  unfold rag_try. intros Hrun.
  apply io_bind_ret_inv in Hrun as (query_vec & log1 & _ & Hrun).
  apply io_bind_ret_inv in Hrun as (points & log2 & _ & Hrun).
  destruct points as [|p points].
  - inversion Hrun. simpl. eauto.
  - apply io_bind_ret_inv in Hrun as (rendered & log3 & _ & Hrun).
    apply io_bind_ret_inv in Hrun as (body & log4 & _ & Hrun).
    apply io_bind_ret_inv in Hrun as (output & log5 & _ & Hrun).
    apply io_bind_ret_inv in Hrun as (answer & log6 & _ & Hrun).
    inversion Hrun. simpl. eauto.
Qed.

(** The [except] branch: the exception becomes an assistant turn. *)
Lemma rag_answer_except svc question history top_k show_sources e log :
  rag_try svc question history top_k show_sources [] = (Raise e, log) →
  rag_answer svc question history top_k show_sources =
  (Ret (history ++ [ user_turn question;
                     assistant_turn (JStr (error_message (exn_str e))) ], []),
   log).
Proof.
  intros Htry. unfold rag_answer, io_try_except. by rewrite Htry.
Qed.

Lemma rag_answer_try svc question history top_k show_sources r log :
  rag_try svc question history top_k show_sources [] = (Ret r, log) →
  rag_answer svc question history top_k show_sources = (Ret r, log).
Proof.
  intros Htry. unfold rag_answer, io_try_except. by rewrite Htry.
Qed.

(** The no-context path, with the calls it makes. *)
Lemma rag_answer_no_points svc question history top_k show_sources query_vec :
  embedder_encode svc question = Answer query_vec →
  qdrant_query_points svc COLLECTION query_vec top_k = Answer [] →
  rag_answer svc question history top_k show_sources =
  (Ret (history ++ [ user_turn question;
                     assistant_turn (JStr no_information_message) ], []),
   [ CallEncode question; CallQueryPoints COLLECTION query_vec top_k ]).
Proof.
  intros Henc Hquery.
  apply rag_answer_try. unfold rag_try, mbind, io_bind, external.
  rewrite Henc. cbn [of_reply]. by rewrite Hquery.
Qed.

End answer_facts.

(** * The properties of the specification *)

(** ** Text Segmenter *)




(** Claim C6, as the code has it: a text of exactly 400 words, split with
    the default arguments, gives two chunks. The first is the whole word
    sequence joined by single spaces; the second is the window that starts
    at word 350, the last 50 words. *)
Theorem split_text_chunk_size_words (text : str) (extra : nat) :
  length (str_split text) = 400 →
  split_text (3 + extra) text default_chunk_size default_overlap =
  Ret [ str_join (lit " ") (str_split text);
        str_join (lit " ") (drop 350 (str_split text)) ].
Proof.
  intros Hlen. unfold split_text, default_chunk_size, default_overlap.
  pose proof (str_split_tokens text) as Htok.
  set (words := str_split text) in *.
  assert (Hl : len words = 400%Z) by (unfold len; lia).
  change (3 + extra) with (S (S (S extra))).
  rewrite split_text_loop_step, Hl. change (0 <? 400)%Z with true. cbv iota.
  rewrite py_slice_all by lia.
  rewrite (str_strip_join _ _ Htok).
  assert (H1 : (50 <? len (str_join (lit " ") words))%Z = true).
  { apply Z.ltb_lt. pose proof (str_join_length 32%N words Htok).
    change (lit " ") with [32%N]. unfold len. lia. }
  rewrite H1. simpl app.
  rewrite split_text_loop_step, Hl.
  change (0 + (400 - 50) <? 400)%Z with true. cbv iota.
  rewrite py_slice_tail by lia.
  change (Z.to_nat (0 + (400 - 50))) with 350.
  assert (Htok' : Forall token (drop 350 words)) by by apply Forall_drop.
  rewrite (str_strip_join _ _ Htok').
  assert (H2 : (50 <? len (str_join (lit " ") (drop 350 words)))%Z = true).
  { apply Z.ltb_lt. pose proof (str_join_length 32%N _ Htok') as Hj.
    rewrite length_drop in Hj.
    change (lit " ") with [32%N]. unfold len. lia. }
  rewrite H2. simpl app.
  destruct extra; rewrite split_text_loop_step, Hl; reflexivity.
Qed.

Lemma split_text_chunk_size_words_witness :
  length (str_split doc400) = 400 ∧
  split_text 3 doc400 default_chunk_size default_overlap =
  Ret [ str_join (lit " ") (str_split doc400);
        str_join (lit " ") (drop 350 (str_split doc400)) ].
Proof.
  split; [vm_compute; reflexivity|].
  apply (split_text_chunk_size_words doc400 0). vm_compute; reflexivity.
Defined.

(** Claim C6 as stated fails: for the text of 400 words [doc400] the result
    is never the single chunk that holds the whole text. *)
Lemma split_text_400_words_not_one_chunk :
  length (str_split doc400) = 400 ∧
  ∀ fuel, split_text fuel doc400 default_chunk_size default_overlap ≠
          Ret [ str_join (lit " ") (str_split doc400) ].
Proof.
  split; [vm_compute; reflexivity|].
  intros [|[|[|extra]]]; [done|vm_compute; done|vm_compute; done|].
  assert (Hthree :
    split_text 3 doc400 default_chunk_size default_overlap =
    Ret [ str_join (lit " ") (str_split doc400);
          str_join (lit " ") (drop 350 (str_split doc400)) ])
    by (vm_compute; reflexivity).
  change (S (S (S extra))) with (3 + extra). unfold split_text in *.
  rewrite (split_text_loop_extra 3 extra _ _ _ _ _ _ Hthree).
  apply ret_two_ne_one.
Qed.

(** ** Chunk Enricher and Corpus Builder *)

Section corpus_claims.
Context `{Runtime}.
Variable bedrock : nat → request → reply str.

(** Claim C4: when the pipeline returns its catalog, the texts of the
    catalog are the raw chunks of the documents, document after document, and
    the ids are 0, 1, ..., N-1 in that order, N being the total number of raw
    chunks. The counter is never reset between documents. *)
Theorem pipeline_ids_contiguous (fuel : nat) (docs : list Document)
    (catalog : list EnrichedChunk) :
  agentic_chunking_pipeline bedrock fuel docs = Ret catalog →
  ∃ raw : list (list str),
    Forall2 (λ doc chunks,
      split_text fuel (doc_text doc) default_chunk_size default_overlap
      = Ret chunks) docs raw ∧
    map ec_text catalog = concat raw ∧
    map ec_id catalog = Z.of_nat <$> seq 0 (length (concat raw)).
Proof.
  intros Hrun.
  destruct (pipeline_catalog bedrock fuel docs catalog Hrun)
    as (Hall & raw & Hraw & Htexts).
  exists raw. split; [done|]. split; [done|].
  rewrite <- Htexts, length_map. apply lookup_index_map.
  intros k c Hk. destruct (Hall k c Hk) as (d & _ & ->). done.
Qed.

(** Claim C7, as the code has it: the category and the importance of a
    catalog entry are what the enrichment dictionary of its chunk holds under
    these keys, unchecked, and "General" and 5 where the key is missing. They
    are "General" and 5, hence an allowed category and a score in 1..10,
    when the enrichment fell back to the default metadata. *)
Theorem catalog_category_importance (fuel : nat) (docs : list Document)
    (catalog : list EnrichedChunk) (k : nat) (c : EnrichedChunk) :
  agentic_chunking_pipeline bedrock fuel docs = Ret catalog →
  catalog !! k = Some c →
  ∃ d,
    enrich_chunk (bedrock k) (ec_text c) (ec_source c) = Ret (JObj d) ∧
    ec_category c = default (JStr (lit "General")) (d !! lit "category") ∧
    ec_importance c = default (JInt 5) (d !! lit "importance") ∧
    (d !! lit "category" = None → valid_category (ec_category c) = true) ∧
    (d !! lit "importance" = None → valid_importance (ec_importance c) = true) ∧
    ((∃ e, enrich_try (bedrock k) (ec_text c) = Raise e) →
     ec_category c = JStr (lit "General") ∧ ec_importance c = JInt 5 ∧
     valid_category (ec_category c) = true ∧
     valid_importance (ec_importance c) = true).
Proof.
  intros Hrun Hk.
  destruct (pipeline_catalog bedrock fuel docs catalog Hrun) as [Hall _].
  destruct (Hall k c Hk) as (d & Henrich & Hc).
  exists d. split; [done|].
  assert (Hcat : ec_category c = default (JStr (lit "General")) (d !! lit "category"))
    by (by rewrite Hc).
  assert (Himp : ec_importance c = default (JInt 5) (d !! lit "importance"))
    by (by rewrite Hc).
  split; [done|]. split; [done|]. split; [|split].
  - intros Hnone. by rewrite Hcat, Hnone.
  - intros Hnone. by rewrite Himp, Hnone.
  - intros [e He].
    rewrite (enrich_chunk_fallback _ _ _ _ He) in Henrich.
    destruct (fallback_lookup (ec_text c))
      as (d' & Hd' & _ & _ & _ & Hcategory & Himportance).
    rewrite Hd' in Henrich. inversion Henrich; subst d'.
    rewrite Hcat, Himp, Hcategory, Himportance. done.
Qed.

(** Claim C10: when the [try] block of the enrichment returns a dictionary,
    the step of the pipeline returns too, and it appends the entry in which
    each of the five fields is the value of the dictionary, or, for a field
    the dictionary lacks, that field's own default: the empty string for the
    title and the summary, the empty list for the keywords, "General" and 5.
    The default title is not the title of the fallback metadata. *)
Theorem pipeline_chunk_missing_fields (source : str) (st : pipeline_state)
    (chunk : str) (d : gmap str json) :
  enrich_try (bedrock (calls st)) chunk = Ret (JObj d) →
  ∃ entry,
    pipeline_chunk bedrock source st chunk = Ret (push st entry) ∧
    ec_id entry = chunk_id st ∧ ec_source entry = source ∧
    ec_text entry = chunk ∧
    ec_title entry = default (JStr []) (d !! lit "title") ∧
    ec_summary entry = default (JStr []) (d !! lit "summary") ∧
    ec_keywords entry = default (JArr []) (d !! lit "keywords") ∧
    ec_category entry = default (JStr (lit "General")) (d !! lit "category") ∧
    ec_importance entry = default (JInt 5) (d !! lit "importance") ∧
    (d !! lit "title" = None →
     ec_title entry = JStr [] ∧
     ec_title entry ≠ JStr (lit "General Information")).
Proof.
  intros Htry. exists (catalog_entry (chunk_id st) source chunk d).
  split; [apply pipeline_chunk_dict; by apply enrich_chunk_decoded|].
  do 8 (split; [reflexivity|]).
  intros Hnone. simpl. rewrite Hnone. split; [done|].
  intros Heq. inversion Heq.
Qed.

End corpus_claims.

(** ** Index Loader *)

Section index_claims.
Context `{Runtime}.

(** Claim C8: two builds from the same catalog, the second on what the
    first left behind, end with the same ids and the same payloads in the
    index, whatever the two embedders answer. The ids are those of the
    catalog, and every point stored is an entry of the catalog under its id,
    with its payload and the embedding of its title, summary and text joined
    by single spaces. *)
Theorem rebuild_same_index (encode1 encode2 : str → reply vector)
    (chunks : list EnrichedChunk) (q q1 q2 : qdrant_state) :
  data_ingestion encode1 chunks q = Ret q1 →
  data_ingestion encode2 chunks q1 = Ret q2 →
  index_ids q1 = index_ids q2 ∧
  (∀ i, index_payload q1 i = index_payload q2 i) ∧
  index_ids q1 = list_to_set (map ec_id chunks) ∧
  (∀ c1 i p, q1 !! COLLECTION = Some c1 → coll_points c1 !! i = Some p →
     ∃ c, c ∈ chunks ∧ ec_id c = i ∧ pt_payload p = chunk_payload c ∧
          encode1 (format_value (ec_title c) ++ lit " " ++
                   format_value (ec_summary c) ++ lit " " ++ ec_text c)
          = Answer (pt_vector p)).
Proof.
  intros Hrun1 Hrun2.
  apply data_ingestion_ret_inv in Hrun1 as (points1 & Hpoints1 & Hq1).
  apply data_ingestion_ret_inv in Hrun2 as (points2 & Hpoints2 & Hq2).
  destruct (ingest_points _ _ _ _ Hpoints1) as (Hids1 & Hpay1 & _).
  destruct (ingest_points _ _ _ _ Hpoints2) as (Hids2 & Hpay2 & _).
  simpl in Hids1, Hids2, Hpay1, Hpay2.
  assert (Hpayloads : ∀ i, index_payload q1 i = index_payload q2 i).
  { intros i.
    rewrite (index_payload_lookup _ _ _ Hq1), (index_payload_lookup _ _ _ Hq2).
    simpl. apply upsert_payloads; [congruence|congruence|done]. }
  assert (Hmembers : index_ids q1 = list_to_set (map ec_id chunks)).
  { unfold index_ids. rewrite Hq1. simpl.
    by rewrite upsert_ids, dom_empty_L, union_empty_l_L, Hids1. }
  split; [|split; [done|split; [done|]]].
  - rewrite Hmembers. unfold index_ids. rewrite Hq2. simpl.
    by rewrite upsert_ids, dom_empty_L, union_empty_l_L, Hids2.
  - intros c1 i p Hc1 Hp. rewrite Hq1 in Hc1. inversion Hc1; subst c1.
    simpl in Hp. apply upsert_lookup in Hp as [[Hin Hid]|Hempty];
      [|by rewrite lookup_empty in Hempty].
    destruct (ingest_points_origin _ _ _ _ Hpoints1 p Hin)
      as [Hnil|(c & Hc & Hidc & Hpayc & Hvec)];
      [by apply elem_of_nil in Hnil|].
    exists c. split; [done|]. split; [congruence|]. by split.
Qed.

End index_claims.

(** ** Answer Composer *)

Section answer_claims.
Context `{Runtime}.

(** Claim C2: an exception raised in the [try] block of [rag_answer], be it
    by the embedder, by the index, by Bedrock or while the reply is read, is
    caught: the invocation returns, and what it returns is the history with
    two turns appended and empty sources. The first is the user's, with the
    question as its content. The second is the assistant's: its content is
    the text made of the cross mark (U+274C), " Error: " and the message of
    the exception, [str(e)], in this order and nothing else. Both turns are
    text, so a history of text turns stays one. *)
Theorem rag_answer_failure_path (svc : services) (question : str)
    (history : list turn) (top_k : Z) (show_sources : bool) (e : exn)
    (log : list call) :
  rag_try svc question history top_k show_sources [] = (Raise e, log) →
  rag_answer svc question history top_k show_sources =
  (Ret (history ++
          [ {| turn_role := user; content := JStr question |};
            {| turn_role := assistant;
               content := JStr ([10060%N] ++ lit " Error: " ++ exn_str e) |} ],
        []),
   log) ∧
  (Forall text_turn history →
   Forall text_turn
     (history ++
        [ {| turn_role := user; content := JStr question |};
          {| turn_role := assistant;
             content := JStr ([10060%N] ++ lit " Error: " ++ exn_str e) |} ])).
Proof.
  intros Htry. split; [by apply rag_answer_except|].
  intros Hhistory. apply Forall_app. split; [done|].
  repeat constructor; by eexists.
Qed.

(** Claim C3: when the index returns no point, the invocation returns the
    history with two turns appended and empty sources. The first is the
    user's, with the question as its content. The second is the assistant's,
    and its content is the same text for every question and history: the
    warning sign (U+26A0 U+FE0F) and " No relevant information found. Please
    contact Metricon on 1300 786 773.", which sends the user to Metricon's
    telephone number. The embedder and the index were called, Bedrock was
    not. *)
Theorem rag_answer_no_context (svc : services) (question : str)
    (history : list turn) (top_k : Z) (show_sources : bool)
    (query_vec : vector) :
  embedder_encode svc question = Answer query_vec →
  qdrant_query_points svc COLLECTION query_vec top_k = Answer [] →
  ∃ log,
    rag_answer svc question history top_k show_sources =
    (Ret (history ++
            [ {| turn_role := user; content := JStr question |};
              {| turn_role := assistant;
                 content :=
                   JStr ([9888%N; 65039%N] ++
                         lit " No relevant information found. Please contact Metricon on 1300 786 773.") |} ],
          []),
     log) ∧
    log = [ CallEncode question; CallQueryPoints COLLECTION query_vec top_k ] ∧
    Forall (λ c, is_invoke_model c = false) log.
Proof.
  intros Hencode Hquery. eexists. split; [by apply rag_answer_no_points|].
  split; [done|]. by repeat constructor.
Qed.

(** Claim C9: every invocation of [rag_answer] returns, and the history it
    returns is the history it was given followed by the user turn of the
    question and one assistant turn. *)
Theorem rag_answer_appends_two_turns (svc : services) (question : str)
    (history : list turn) (top_k : Z) (show_sources : bool) :
  ∃ answer sources log,
    rag_answer svc question history top_k show_sources =
    (Ret (history ++ [ {| turn_role := user; content := JStr question |};
                       {| turn_role := assistant; content := answer |} ],
          sources),
     log).
Proof.
  destruct (rag_try svc question history top_k show_sources [])
    as [[[h s]|e|] log] eqn:Htry.
  - destruct (rag_try_ret_inv _ _ _ _ _ _ _ _ Htry) as [answer Hh].
    simpl in Hh. subst h. exists answer, s, log. by apply rag_answer_try.
  - eexists _, _, log. by apply rag_answer_except.
  - pose proof (io_finishes_rag_try svc question history top_k show_sources [])
      as Hfin. by rewrite Htry in Hfin.
Qed.

End answer_claims.

(** ** Concrete runs *)

Section concrete_runs.
#[local] Existing Instance sample_runtime.

(** Claim C1 at the reply [array_reply]: the model's text is valid JSON, an
    array that wraps the object asked for, so it does not have the expected
    structure. [enrich_chunk] returns the array, not the default metadata,
    and the pipeline then raises [AttributeError] at [enriched.get]. *)
Example enrich_chunk_array_reply :
  (∃ l, enrich_chunk (bedrock_says array_reply 0) months_text (lit "faq.pdf")
        = Ret (JArr l)) ∧
  enrich_chunk (bedrock_says array_reply 0) months_text (lit "faq.pdf")
  ≠ Ret (fallback_metadata months_text) ∧
  agentic_chunking_pipeline (bedrock_says array_reply) 100 [months_doc]
  = Raise (AttributeError TList (lit "get")).
Proof.
  assert (Harray : ∃ l,
    enrich_chunk (bedrock_says array_reply 0) months_text (lit "faq.pdf")
    = Ret (JArr l)) by (eexists; vm_compute; reflexivity).
  split; [done|]. split; [|vm_compute; reflexivity].
  destruct Harray as [l ->]. unfold fallback_metadata. intros Heq. inversion Heq.
Qed.

(** The code fences around the model's text are removed before it is
    decoded. *)
Example enrich_chunk_fenced_reply :
  enrich_chunk (bedrock_says fenced_reply 0) months_text (lit "faq.pdf")
  = Ret (JObj (<[lit "title" := JStr (lit "Build time")]>
              (<[lit "importance" := JInt 8]> ∅))).
Proof. vm_compute. reflexivity. Qed.

Lemma pipeline_ids_contiguous_witness :
  agentic_chunking_pipeline bedrock_timeout 100 [months_doc; finance_doc]
  = Ret [fallback_entry 0 months_doc; fallback_entry 1 finance_doc] ∧
  ∃ raw : list (list str),
    Forall2 (λ doc chunks,
      split_text 100 (doc_text doc) default_chunk_size default_overlap
      = Ret chunks) [months_doc; finance_doc] raw ∧
    map ec_text [fallback_entry 0 months_doc; fallback_entry 1 finance_doc]
    = concat raw ∧
    map ec_id [fallback_entry 0 months_doc; fallback_entry 1 finance_doc]
    = Z.of_nat <$> seq 0 (length (concat raw)).
Proof.
  assert (Hrun :
    agentic_chunking_pipeline bedrock_timeout 100 [months_doc; finance_doc]
    = Ret [fallback_entry 0 months_doc; fallback_entry 1 finance_doc])
    by (vm_compute; reflexivity).
  split; [exact Hrun|].
  exact (pipeline_ids_contiguous bedrock_timeout 100 [months_doc; finance_doc]
           _ Hrun).
Defined.

Lemma catalog_category_importance_witness :
  agentic_chunking_pipeline bedrock_timeout 100 [months_doc]
  = Ret [fallback_entry 0 months_doc] ∧
  ∃ d,
    enrich_chunk (bedrock_timeout 0) months_text (lit "faq.pdf") = Ret (JObj d) ∧
    JStr (lit "General") = default (JStr (lit "General")) (d !! lit "category") ∧
    JInt 5 = default (JInt 5) (d !! lit "importance").
Proof.
  assert (Hrun : agentic_chunking_pipeline bedrock_timeout 100 [months_doc]
                 = Ret [fallback_entry 0 months_doc])
    by (vm_compute; reflexivity).
  split; [exact Hrun|].
  destruct (catalog_category_importance bedrock_timeout 100 [months_doc]
              [fallback_entry 0 months_doc] 0 (fallback_entry 0 months_doc)
              Hrun eq_refl) as (d & Henrich & Hcat & Himp & _).
  exists d. split; [exact Henrich|]. split; [exact Hcat|exact Himp].
Defined.

(** Claim C7 as stated fails: the model answers with a category outside the
    five and a score of 42, and both reach the catalog. *)
Lemma catalog_category_unvalidated :
  agentic_chunking_pipeline (bedrock_says pricing_reply) 100 [months_doc]
  = Ret [pricing_entry] ∧
  valid_category (ec_category pricing_entry) = false ∧
  valid_importance (ec_importance pricing_entry) = false.
Proof. repeat split; vm_compute; reflexivity. Qed.

Lemma pipeline_chunk_missing_fields_witness :
  ∃ d entry,
    enrich_try (bedrock_says partial_reply 0) months_text = Ret (JObj d) ∧
    d !! lit "title" = None ∧
    pipeline_chunk (bedrock_says partial_reply) (lit "faq.pdf") initial_state
      months_text = Ret (push initial_state entry) ∧
    ec_title entry = JStr [] ∧
    ec_importance entry = JInt 7.
Proof.
  set (d := <[lit "importance" := JInt 7]>
              (<[lit "summary" := JStr (lit "Twelve months on average")]> ∅)
            : gmap str json).
  assert (Htry :
    enrich_try (bedrock_says partial_reply (calls initial_state)) months_text
    = Ret (JObj d)) by (vm_compute; reflexivity).
  assert (Hnone : d !! lit "title" = None) by (vm_compute; reflexivity).
  destruct (pipeline_chunk_missing_fields (bedrock_says partial_reply)
              (lit "faq.pdf") initial_state months_text d Htry)
    as (entry & Hstep & _ & _ & _ & _ & _ & _ & _ & Himp & Htitle).
  exists d, entry. split; [exact Htry|]. split; [exact Hnone|].
  split; [exact Hstep|]. split; [exact (proj1 (Htitle Hnone))|].
  rewrite Himp. vm_compute. reflexivity.
Defined.

Lemma rebuild_same_index_witness :
  ∃ q1 q2 : qdrant_state,
    data_ingestion encode_zeros
      [fallback_entry 0 months_doc; fallback_entry 1 finance_doc] ∅ = Ret q1 ∧
    data_ingestion encode_ones
      [fallback_entry 0 months_doc; fallback_entry 1 finance_doc] q1 = Ret q2 ∧
    index_ids q1 = index_ids q2 ∧
    (∀ i, index_payload q1 i = index_payload q2 i).
Proof.
  assert (Hzeros : embeds encode_zeros)
    by (intros text; eexists; split; reflexivity).
  assert (Hones : embeds encode_ones)
    by (intros text; eexists; split; reflexivity).
  destruct (data_ingestion_returns encode_zeros
              [fallback_entry 0 months_doc; fallback_entry 1 finance_doc] ∅
              Hzeros) as [q1 Hq1].
  destruct (data_ingestion_returns encode_ones
              [fallback_entry 0 months_doc; fallback_entry 1 finance_doc] q1
              Hones) as [q2 Hq2].
  exists q1, q2. split; [exact Hq1|]. split; [exact Hq2|].
  destruct (rebuild_same_index encode_zeros encode_ones _ ∅ q1 q2 Hq1 Hq2)
    as (Hids & Hpayloads & _).
  split; [exact Hids|exact Hpayloads].
Defined.

Lemma rag_answer_failure_path_witness :
  rag_try services_down build_question earlier_history 3 true []
  = (Raise (ServiceError (lit "Connection refused")), [CallEncode build_question]) ∧
  rag_answer services_down build_question earlier_history 3 true =
  (Ret (earlier_history ++
          [ {| turn_role := user; content := JStr build_question |};
            {| turn_role := assistant;
               content :=
                 JStr ([10060%N] ++ lit " Error: " ++
                       lit "Connection refused") |} ],
        []),
   [CallEncode build_question]).
Proof.
  assert (Htry :
    rag_try services_down build_question earlier_history 3 true []
    = (Raise (ServiceError (lit "Connection refused")),
       [CallEncode build_question])) by reflexivity.
  split; [exact Htry|].
  exact (proj1 (rag_answer_failure_path services_down build_question
                  earlier_history 3 true _ _ Htry)).
Defined.

Lemma rag_answer_no_context_witness :
  ∃ log,
    rag_answer services_no_match build_question earlier_history 3 true =
    (Ret (earlier_history ++
            [ {| turn_role := user; content := JStr build_question |};
              {| turn_role := assistant;
                 content :=
                   JStr ([9888%N; 65039%N] ++
                         lit " No relevant information found. Please contact Metricon on 1300 786 773.") |} ],
          []),
     log) ∧
    log = [ CallEncode build_question;
            CallQueryPoints COLLECTION (replicate 384 0%Z) 3 ] ∧
    Forall (λ c, is_invoke_model c = false) log.
Proof.
  exact (rag_answer_no_context services_no_match build_question
           earlier_history 3 true (replicate 384 0%Z) eq_refl eq_refl).
Defined.

End concrete_runs.

(** * Further properties *)

(** ** [split_text], window by window *)

Lemma window_count_spec (n stride : Z) (k : nat) :
  (0 < stride)%Z →
  (Z.of_nat k * stride < n)%Z ↔ k < window_count n stride.
Proof.
  intros Hstride. unfold window_count.
  pose proof (Z.div_mod (n + stride - 1) stride) as Hdiv.
  pose proof (Z.mod_pos_bound (n + stride - 1) stride Hstride) as Hmod.
  set (c := ((n + stride - 1) / stride)%Z) in *.
  set (r := ((n + stride - 1) mod stride)%Z) in *.
  specialize (Hdiv ltac:(lia)).
  split; intros Hk.
  - assert (Z.of_nat k < c)%Z by nia. lia.
  - assert (Z.of_nat k < c)%Z by lia. nia.
Qed.

Lemma long_enough_spec chunk :
  (50 <? len (str_strip chunk))%Z = bool_decide (long_enough chunk).
Proof.
  unfold long_enough. destruct (Z.ltb_spec 50 (len (str_strip chunk))).
  - by rewrite bool_decide_eq_true_2.
  - rewrite bool_decide_eq_false_2; [done|lia].
Qed.

(** From window [k] on, the loop appends the windows that pass the test, in
    order, until the windows are used up. *)
Lemma split_text_loop_windows words cs ov m : ∀ fuel k chunks,
  (ov < cs)%Z →
  k + m = window_count (len words) (cs - ov) →
  m < fuel →
  split_text_loop fuel words cs ov (Z.of_nat k * (cs - ov)) chunks =
  Ret (chunks ++ filter long_enough (window words cs (cs - ov) <$> seq k m)).
Proof.
  induction m as [|m IH]; intros fuel k chunks Hstride Hcount Hfuel;
    (destruct fuel as [|fuel]; [lia|]); rewrite split_text_loop_step.
  - destruct (Z.ltb_spec (Z.of_nat k * (cs - ov)) (len words)) as [Hlt|Hge].
    + apply window_count_spec in Hlt; lia.
    + simpl. by rewrite app_nil_r.
  - destruct (Z.ltb_spec (Z.of_nat k * (cs - ov)) (len words)) as [Hlt|Hge].
    + replace (Z.of_nat k * (cs - ov) + (cs - ov))%Z
        with (Z.of_nat (S k) * (cs - ov))%Z by lia.
      rewrite IH by lia.
      f_equal. rewrite long_enough_spec. simpl seq. rewrite fmap_cons.
      rewrite filter_cons. fold (window words cs (cs - ov) k).
      case_bool_decide; case_decide; try done.
      * by rewrite <- app_assoc.
    + assert (Hk : k < window_count (len words) (cs - ov)) by lia.
      apply window_count_spec in Hk; lia.
Qed.

Lemma str_lstrip_length s : length (str_lstrip s) ≤ length s.
Proof.
  induction s as [|c s IH]; simpl; [done|]. destruct (isspace c); simpl; lia.
Qed.

Lemma str_strip_length s : length (str_strip s) ≤ length s.
Proof.
  unfold str_strip. rewrite length_rev.
  etrans; [apply str_lstrip_length|]. rewrite length_rev.
  apply str_lstrip_length.
Qed.

Lemma str_join_cons_length sep p rest :
  length (str_join sep (p :: rest)) =
  length p + match rest with
             | [] => 0
             | _ => length sep + length (str_join sep rest)
             end.
Proof.
  destruct rest as [|p' rest]; [simpl; lia|].
  change (str_join sep (p :: p' :: rest))
    with (p ++ sep ++ str_join sep (p' :: rest)).
  by rewrite !length_app.
Qed.

Lemma str_join_drop_length sep n : ∀ parts,
  length (str_join sep (drop n parts)) ≤ length (str_join sep parts).
Proof.
  induction n as [|n IH]; intros [|p parts]; simpl drop; try done.
  etrans; [apply IH|]. rewrite str_join_cons_length.
  destruct parts; simpl; lia.
Qed.

Lemma str_join_take_length sep n : ∀ parts,
  length (str_join sep (take n parts)) ≤ length (str_join sep parts).
Proof.
  induction n as [|n IH]; intros [|p parts]; simpl take; try (simpl; lia).
  rewrite !str_join_cons_length. specialize (IH parts).
  destruct parts as [|p' parts]; [by destruct n|].
  destruct (take n (p' :: parts)) eqn:Htake; lia.
Qed.

Lemma str_join_slice_length {sep} (parts : list str) lo hi :
  length (str_join sep (py_slice parts lo hi)) ≤ length (str_join sep parts).
Proof.
  unfold py_slice. etrans; [apply str_join_take_length|].
  apply str_join_drop_length.
Qed.

(** The words of a text, joined by single spaces, are no longer than the
    text. *)
Lemma str_split_aux_join_length s : ∀ cur,
  length (str_join [32%N] (str_split_aux cur s)) ≤ length cur + length s.
Proof.
  induction s as [|c s IH]; intros cur; simpl str_split_aux.
  - destruct cur; simpl; [lia|]. rewrite length_app, length_rev. simpl. lia.
  - destruct (isspace c).
    + destruct cur as [|a cur].
      * specialize (IH []). simpl in *. lia.
      * rewrite str_join_cons_length. specialize (IH []).
        rewrite length_rev.
        destruct (str_split_aux [] s); simpl in *; lia.
    + specialize (IH (c :: cur)). simpl in *. lia.
Qed.

Lemma window_length text cs stride k :
  length (str_strip (window (str_split text) cs stride k)) ≤ length text.
Proof.
  etrans; [apply str_strip_length|]. unfold window.
  etrans; [apply str_join_slice_length|].
  apply (str_split_aux_join_length text []).
Qed.

Lemma filter_none {A} (P : A → Prop) `{∀ x, Decision (P x)} (l : list A) :
  Forall (λ x, ¬ P x) l → filter P l = [].
Proof.
  induction 1 as [|x l Hx _ IH]; [done|]. by rewrite filter_cons_False.
Qed.

Lemma str_split_aux_spaces s :
  Forall (λ c, isspace c = true) s → str_split_aux [] s = [].
Proof.
  induction 1 as [|c s Hc _ IH]; simpl; [done|]. by rewrite Hc.
Qed.

Lemma py_slice_tokens (words : list str) lo hi :
  Forall token words → Forall token (py_slice words lo hi).
Proof. intros Hwords. unfold py_slice. by apply Forall_take, Forall_drop. Qed.

(** Every chunk the loop appends passed the test, and stripping it changes
    nothing. *)
Lemma split_text_loop_chunks fuel : ∀ words cs ov start chunks r,
  Forall token words →
  Forall (λ c, long_enough c ∧ str_strip c = c) chunks →
  split_text_loop fuel words cs ov start chunks = Ret r →
  Forall (λ c, long_enough c ∧ str_strip c = c) r.
Proof.
  induction fuel as [|fuel IH]; intros words cs ov start chunks r Hwords Hchunks;
    [done|].
  rewrite split_text_loop_step.
  destruct (start <? len words)%Z; [|by intros [= <-]].
  apply IH; [done|]. rewrite long_enough_spec.
  case_bool_decide as Hlong; [|done].
  apply Forall_app. split; [done|]. constructor; [|done].
  split; [done|]. apply str_strip_join. by apply py_slice_tokens.
Qed.

(** Property X1. With a positive stride, [split_text] returns the windows at 0,
    stride, 2 * stride, ... that start inside the words and are longer than
    50 characters once stripped, in that order. *)
Theorem split_text_windows (text : str) (chunk_size overlap : Z) (extra : nat) :
  (overlap < chunk_size)%Z →
  split_text
    (S (window_count (len (str_split text)) (chunk_size - overlap)) + extra)
    text chunk_size overlap =
  Ret (filter long_enough
         (window (str_split text) chunk_size (chunk_size - overlap) <$>
          seq 0 (window_count (len (str_split text)) (chunk_size - overlap)))).
Proof.
  intros Hstride. unfold split_text.
  pose proof (split_text_loop_windows (str_split text) chunk_size overlap
    (window_count (len (str_split text)) (chunk_size - overlap))
    (S (window_count (len (str_split text)) (chunk_size - overlap)) + extra)
    0 [] Hstride) as Hloop.
  simpl in Hloop. apply Hloop; lia.
Qed.

Lemma split_text_windows_witness :
  (50 < 400)%Z ∧
  split_text (S (window_count (len (str_split doc400)) 350)) doc400 400 50 =
  Ret (filter long_enough (window (str_split doc400) 400 350 <$> seq 0 2)).
Proof.
  split; [lia|].
  pose proof (split_text_windows doc400 400 50 0 ltac:(lia)) as Hrun.
  rewrite Nat.add_0_r in Hrun. exact Hrun.
Defined.

(** Property X2. Whatever the arguments, every chunk [split_text] returns is longer
    than 50 characters and has no whitespace at either end. *)
Theorem split_text_chunks_long (fuel : nat) (text : str)
    (chunk_size overlap : Z) (chunks : list str) :
  split_text fuel text chunk_size overlap = Ret chunks →
  Forall (λ c, (50 < len c)%Z ∧ str_strip c = c) chunks.
Proof.
  intros Hrun. unfold split_text in Hrun.
  apply split_text_loop_chunks in Hrun; [|apply str_split_tokens|constructor].
  eapply Forall_impl; [exact Hrun|]. intros c [Hlong Hstrip].
  unfold long_enough in Hlong. by rewrite Hstrip in Hlong.
Qed.

Lemma split_text_chunks_long_witness :
  split_text 3 doc400 400 50 =
  Ret [ str_join (lit " ") (str_split doc400);
        str_join (lit " ") (drop 350 (str_split doc400)) ] ∧
  Forall (λ c, (50 < len c)%Z ∧ str_strip c = c)
    [ str_join (lit " ") (str_split doc400);
      str_join (lit " ") (drop 350 (str_split doc400)) ].
Proof.
  assert (Hrun : split_text 3 doc400 400 50 =
    Ret [ str_join (lit " ") (str_split doc400);
          str_join (lit " ") (drop 350 (str_split doc400)) ])
    by (vm_compute; reflexivity).
  split; [exact Hrun|]. exact (split_text_chunks_long 3 doc400 400 50 _ Hrun).
Defined.



(** Property X4. A text made of whitespace only, the empty text included, gives no
    chunk at the first test of the loop, whatever the other arguments. *)
Theorem split_text_no_words (text : str) (chunk_size overlap : Z) (fuel : nat) :
  Forall (λ c, isspace c = true) text →
  split_text (S fuel) text chunk_size overlap = Ret [].
Proof.
  intros Hspaces. unfold split_text, str_split.
  by rewrite (str_split_aux_spaces text Hspaces).
Qed.

Lemma split_text_no_words_witness :
  Forall (λ c, isspace c = true) (lit "   ") ∧
  split_text 1 (lit "   ") 50 50 = Ret [].
Proof.
  assert (Hspaces : Forall (λ c, isspace c = true) (lit "   "))
    by (repeat constructor).
  split; [exact Hspaces|]. exact (split_text_no_words _ 50 50 0 Hspaces).
Defined.

(** Property X5. With a positive stride, a text of at most 50 characters gives no
    chunk: no window of it is long enough. *)
Theorem split_text_short_text (text : str) (chunk_size overlap : Z)
    (extra : nat) :
  (overlap < chunk_size)%Z → (len text ≤ 50)%Z →
  split_text
    (S (window_count (len (str_split text)) (chunk_size - overlap)) + extra)
    text chunk_size overlap = Ret [].
Proof.
  intros Hstride Hshort. rewrite split_text_windows by done. f_equal.
  apply filter_none, Forall_fmap, Forall_forall. intros k _. simpl.
  unfold long_enough, len in *.
  pose proof (window_length text chunk_size (chunk_size - overlap) k). lia.
Qed.

Lemma split_text_short_text_witness :
  (50 < 400)%Z ∧ (len (lit "Call 1300 786 773.") ≤ 50)%Z ∧
  split_text 2 (lit "Call 1300 786 773.") 400 50 = Ret [].
Proof.
  split; [lia|]. split; [vm_compute; discriminate|].
  exact (split_text_short_text (lit "Call 1300 786 773.") 400 50 0
           ltac:(lia) ltac:(vm_compute; discriminate)).
Defined.

(** ** [load_pdfs] *)

Lemma pages_text pages : ∀ text,
  foldl (λ text page, text ++ page_text page) text pages =
  text ++ concat (page_text <$> pages).
Proof.
  induction pages as [|page pages IH]; intros text; simpl.
  - by rewrite app_nil_r.
  - by rewrite IH, app_assoc.
Qed.

Lemma load_pdf_pdf documents entry pages :
  is_pdf entry → entry_pages entry = Answer pages →
  load_pdf documents entry = Ret (documents ++ [document_of entry pages]).
Proof.
  intros Hpdf Hpages. unfold load_pdf, is_pdf in *.
  destruct (str_endswith _ _); [|done]. rewrite Hpages. simpl.
  by rewrite pages_text.
Qed.

Lemma load_pdf_other documents entry :
  ¬ is_pdf entry → load_pdf documents entry = Ret documents.
Proof. intros Hpdf. unfold load_pdf, is_pdf in *. by destruct (str_endswith _ _). Qed.

Lemma load_pdf_unreadable documents entry x :
  is_pdf entry → entry_pages entry = Failure x →
  load_pdf documents entry = Raise x.
Proof.
  intros Hpdf Hpages. unfold load_pdf, is_pdf in *.
  destruct (str_endswith _ _); [|done]. by rewrite Hpages.
Qed.

Lemma load_pdfs_loop entries : ∀ documents loaded,
  for_each load_pdf entries documents = Ret loaded ↔
  ∃ pagess,
    Forall2 (λ entry pages, entry_pages entry = Answer pages)
      (filter (λ entry, is_pdf entry) entries) pagess ∧
    loaded = documents ++
             zip_with document_of (filter (λ entry, is_pdf entry) entries) pagess.
Proof.
  induction entries as [|entry entries IH]; intros documents loaded.
  - simpl. split.
    + intros [= <-]. exists []. split; [constructor|by rewrite app_nil_r].
    + intros (pagess & Hall & ->). inversion Hall; subst. simpl.
      by rewrite app_nil_r.
  - rewrite for_each_cons. destruct (decide (is_pdf entry)) as [Hpdf|Hpdf].
    + rewrite filter_cons_True by done.
      destruct (entry_pages entry) as [pages|x] eqn:Hpages.
      * rewrite (load_pdf_pdf _ _ _ Hpdf Hpages), bind_ret, IH. split.
        -- intros (pagess & Hall & ->). exists (pages :: pagess).
           split; [by constructor|]. simpl. by rewrite <- app_assoc.
        -- intros (pagess & Hall & ->). inversion Hall as [|? pages' ? pagess' Hp Hrest];
             subst. exists pagess'. split; [done|]. simpl.
           assert (pages' = pages) as -> by congruence.
           by rewrite <- app_assoc.
      * rewrite (load_pdf_unreadable _ _ _ Hpdf Hpages). split; [done|].
        intros (pagess & Hall & _). inversion Hall; congruence.
    + rewrite filter_cons_False by done.
      by rewrite (load_pdf_other _ _ Hpdf), bind_ret, IH.
Qed.

(** Property X6. [load_pdfs] returns exactly when every file of the folder whose name
    ends in ".pdf" can be read, and then it returns one document per such
    file, in the order of the listing: its name, and the texts of its pages
    put together ([None] as the empty text) and stripped. Other files are not
    read. *)
Theorem load_pdfs_documents (entries : list folder_entry)
    (documents : list Document) :
  load_pdfs (Answer entries) = Ret documents ↔
  ∃ pagess,
    Forall2 (λ entry pages, entry_pages entry = Answer pages)
      (filter (λ entry, is_pdf entry) entries) pagess ∧
    documents =
      zip_with document_of (filter (λ entry, is_pdf entry) entries) pagess.
Proof. unfold load_pdfs. simpl. apply load_pdfs_loop. Qed.

Lemma load_pdfs_documents_witness :
  load_pdfs sample_folder =
  Ret [ {| doc_source := lit "brochure.pdf"; doc_text := months_text |} ] ∧
  ∃ pagess,
    [ {| doc_source := lit "brochure.pdf"; doc_text := months_text |} ] =
    zip_with document_of
      [ {| entry_name := lit "brochure.pdf";
           entry_pages := Answer brochure_pages |} ] pagess.
Proof.
  assert (Hrun : load_pdfs sample_folder =
    Ret [ {| doc_source := lit "brochure.pdf"; doc_text := months_text |} ])
    by (vm_compute; reflexivity).
  split; [exact Hrun|].
  destruct (proj1 (load_pdfs_documents _ _) Hrun) as (pagess & _ & Hdocs).
  exists pagess. exact Hdocs.
Defined.

(** Property X7. The first file named "*.pdf" that cannot be read ends [load_pdfs]
    with the reader's exception: nothing is returned for the files read
    before it, and the files after it are not read. *)
Theorem load_pdfs_unreadable (before after : list folder_entry)
    (entry : folder_entry) (x : exn) :
  Forall (λ e, is_pdf e → ∃ pages, entry_pages e = Answer pages) before →
  is_pdf entry → entry_pages entry = Failure x →
  load_pdfs (Answer (before ++ entry :: after)) = Raise x.
Proof.
  intros Hbefore Hpdf Hpages. unfold load_pdfs. simpl.
  generalize (@nil Document).
  induction Hbefore as [|e before He _ IH]; intros documents; simpl.
  - by rewrite (load_pdf_unreadable _ _ _ Hpdf Hpages).
  - destruct (decide (is_pdf e)) as [Hpdfe|Hpdfe].
    + destruct (He Hpdfe) as [pages Hp].
      rewrite (load_pdf_pdf _ _ _ Hpdfe Hp). simpl. apply IH.
    + rewrite (load_pdf_other _ _ Hpdfe). simpl. apply IH.
Qed.

Lemma load_pdfs_unreadable_witness :
  load_pdfs (Answer broken_folder) =
  Raise (ServiceError (lit "EOF marker not found")).
Proof.
  apply (load_pdfs_unreadable
           [ {| entry_name := lit "brochure.pdf";
                entry_pages := Answer brochure_pages |} ]
           [ {| entry_name := lit "later.pdf"; entry_pages := Answer [] |} ]
           {| entry_name := lit "scan.pdf";
              entry_pages := Failure (ServiceError (lit "EOF marker not found")) |}).
  - constructor; [|constructor]. intros _. by eexists.
  - by vm_compute.
  - reflexivity.
Defined.

(** ** [enrich_chunk], case by case *)

Lemma is_prefix_app old rest : is_prefix old (old ++ rest) = true.
Proof.
  induction old as [|a old IH]; [done|]. simpl. by rewrite N.eqb_refl, IH.
Qed.

Lemma str_replace_aux_skip old new skipped : ∀ rest,
  str_replace_aux old new (length skipped) (skipped ++ rest) =
  str_replace_aux old new 0 rest.
Proof. induction skipped as [|c skipped IH]; intros rest; [done|apply IH]. Qed.

(** An occurrence of [old] at the front is replaced. *)
Lemma str_replace_aux_match a old new rest :
  str_replace_aux (a :: old) new 0 ((a :: old) ++ rest) =
  new ++ str_replace_aux (a :: old) new 0 rest.
Proof.
  change ((a :: old) ++ rest) with (a :: (old ++ rest)).
  unfold str_replace_aux at 1. fold str_replace_aux.
  change (a :: (old ++ rest)) with ((a :: old) ++ rest).
  rewrite is_prefix_app.
  replace (length (a :: old) - 1) with (length old) by (simpl; lia).
  by rewrite str_replace_aux_skip.
Qed.

(** Characters other than the first of [old] are kept. *)
Lemma str_replace_aux_keep a old new kept : ∀ rest,
  Forall (λ c, c ≠ a) kept →
  str_replace_aux (a :: old) new 0 (kept ++ rest) =
  kept ++ str_replace_aux (a :: old) new 0 rest.
Proof.
  induction kept as [|c kept IH]; intros rest Hkept; [done|].
  apply Forall_cons in Hkept as [Hc Hkept]. simpl.
  destruct (N.eqb_spec a c) as [->|_]; [done|]. simpl. by rewrite IH.
Qed.

Lemma str_replace_absent a old new s :
  Forall (λ c, c ≠ a) s → str_replace (a :: old) new s = s.
Proof.
  intros Hs. unfold str_replace.
  rewrite <- (app_nil_r s) at 1. rewrite str_replace_aux_keep by done.
  simpl. by rewrite app_nil_r.
Qed.

Lemma str_lstrip_suffix s : ∃ spaces, s = spaces ++ str_lstrip s.
Proof.
  induction s as [|c s [spaces IH]]; [by exists []|]. simpl.
  destruct (isspace c); [|by exists []].
  exists (c :: spaces). simpl. by rewrite <- IH.
Qed.

Lemma str_lstrip_head s :
  str_lstrip s = [] ∨ ∃ c rest, str_lstrip s = c :: rest ∧ isspace c = false.
Proof.
  induction s as [|c s IH]; [by left|]. simpl.
  destruct (isspace c) eqn:Hc; [done|]. right. eauto.
Qed.

Lemma str_lstrip_space c s :
  isspace c = true → str_lstrip (c :: s) = str_lstrip s.
Proof. intros Hc. simpl. by rewrite Hc. Qed.

Lemma str_strip_space_cons c s : isspace c = true → str_strip (c :: s) = str_strip s.
Proof. intros Hc. unfold str_strip. simpl. by rewrite Hc. Qed.

Lemma str_strip_space_snoc c s :
  isspace c = true → str_strip (s ++ [c]) = str_strip s.
Proof.
  intros Hc. unfold str_strip. f_equal.
  induction s as [|a s IH]; [simpl; by rewrite Hc|].
  change ((a :: s) ++ [c]) with (a :: (s ++ [c])).
  destruct (isspace a) eqn:Ha.
  - simpl str_lstrip. by rewrite Ha.
  - rewrite !str_lstrip_id by done.
    change (a :: (s ++ [c])) with ((a :: s) ++ [c]).
    rewrite rev_app_distr.
    change (rev [c] ++ rev (a :: s)) with (c :: rev (a :: s)).
    by apply str_lstrip_space.
Qed.

(** A text that starts and ends with a character that is no whitespace is
    its own strip. *)
Lemma str_strip_id c middle c' :
  isspace c = false → isspace c' = false →
  str_strip (c :: middle ++ [c']) = c :: middle ++ [c'].
Proof.
  intros Hc Hc'. unfold str_strip. rewrite str_lstrip_id by done.
  assert (Hrev : rev (c :: middle ++ [c']) = c' :: rev (c :: middle)).
  { change (c :: middle ++ [c']) with ((c :: middle) ++ [c']).
    by rewrite rev_app_distr. }
  rewrite Hrev, str_lstrip_id by done. rewrite <- Hrev. apply rev_involutive.
Qed.

Lemma str_strip_idemp s : str_strip (str_strip s) = str_strip s.
Proof.
  unfold str_strip at 2 3.
  destruct (str_lstrip_head s) as [Hs|(c & rest & Hs & Hc)]; rewrite Hs; [done|].
  destruct (str_lstrip_head (rev (c :: rest))) as [Hr|(c' & rest' & Hr & Hc')];
    rewrite Hr; [done|].
  destruct (str_lstrip_suffix (rev (c :: rest))) as [spaces Hspaces].
  rewrite Hr in Hspaces.
  assert (Hrev : c :: rest = rev (c' :: rest') ++ rev spaces).
  { rewrite <- rev_app_distr, <- Hspaces. by rewrite rev_involutive. }
  destruct (rev (c' :: rest')) as [|d tl] eqn:Hd.
  { apply (f_equal (@length N)) in Hd. rewrite length_rev in Hd. done. }
  simpl in Hrev. inversion Hrev; subst d.
  unfold str_strip. rewrite str_lstrip_id by done.
  rewrite <- Hd, rev_involutive. rewrite str_lstrip_id by done. done.
Qed.

Lemma str_strip_keeps (P : N → Prop) s : Forall P s → Forall P (str_strip s).
Proof.
  intros Hs. unfold str_strip.
  assert (Hl : ∀ t, Forall P t → Forall P (str_lstrip t)).
  { intros t Ht. destruct (str_lstrip_suffix t) as [spaces Heq].
    rewrite Heq in Ht. by apply Forall_app in Ht as [_ Ht]. }
  assert (Hr : ∀ t, Forall P t → Forall P (rev t)).
  { intros t Ht. rewrite Forall_forall in *. intros x Hx. apply Ht.
    apply list_elem_of_In. apply list_elem_of_In in Hx. by apply in_rev. }
  auto.
Qed.

(** Property X9. For a reply that has no backtick, cleaning is stripping; and the
    same reply between [```json] and [```] fences, each on a line of its
    own, is cleaned to the same text. *)
Theorem clean_text_fence (text : str) :
  Forall (λ c, c ≠ backtick) text →
  clean_text text = str_strip text ∧
  clean_text (fence_json text) = str_strip text.
Proof.
  intros Htext. split.
  - unfold clean_text.
    change (lit "```json") with (96%N :: lit "``json").
    change (lit "```") with (96%N :: lit "``").
    rewrite (str_replace_absent _ (lit "``json") [] (str_strip text))
      by (by apply str_strip_keeps).
    rewrite str_replace_absent by (by apply str_strip_keeps).
    apply str_strip_idemp.
  - assert (Hfree : Forall (λ c, c ≠ 96%N) (nl ++ text ++ nl)).
    { apply Forall_app. split; [by repeat constructor|].
      apply Forall_app. split; [done|by repeat constructor]. }
    assert (Hshape : fence_json text =
                     (96%N :: lit "``json") ++ (nl ++ text ++ nl) ++ lit "```").
    { unfold fence_json. by rewrite <- !app_assoc. }
    assert (Hstrip : str_strip (fence_json text) = fence_json text).
    { assert (Hends : fence_json text =
        96%N :: (lit "``json" ++ nl ++ text ++ nl ++ lit "``") ++ [96%N]).
      { unfold fence_json. change (lit "```") with (lit "``" ++ [96%N]).
        rewrite <- !app_assoc. reflexivity. }
      rewrite Hends. by apply str_strip_id. }
    assert (Hfirst :
      str_replace (96%N :: lit "``json") [] (fence_json text) =
      (nl ++ text ++ nl) ++ lit "```").
    { rewrite Hshape. unfold str_replace.
      rewrite str_replace_aux_match, str_replace_aux_keep by done. done. }
    assert (Hsecond :
      str_replace (96%N :: lit "``") [] ((nl ++ text ++ nl) ++ lit "```") =
      nl ++ text ++ nl).
    { unfold str_replace. rewrite str_replace_aux_keep by done.
      change (str_replace_aux (96%N :: lit "``") [] 0 (lit "```")) with (@nil N).
      by rewrite app_nil_r. }
    unfold clean_text.
    change (lit "```json") with (96%N :: lit "``json").
    change (lit "```") with (96%N :: lit "``").
    rewrite Hstrip, Hfirst.
    change (96%N :: lit "``") with (lit "```") at 1.
    change (lit "```") with (96%N :: lit "``") at 1.
    rewrite Hsecond. unfold nl.
    rewrite app_assoc, str_strip_space_snoc by done.
    by apply str_strip_space_cons.
Qed.

Lemma clean_text_fence_witness :
  clean_text (fence_json (jdoc "{'title': 'Build time', 'importance': 8}")) =
  str_strip (jdoc "{'title': 'Build time', 'importance': 8}").
Proof.
  apply (clean_text_fence (jdoc "{'title': 'Build time', 'importance': 8}")).
  vm_compute. repeat constructor; discriminate.
Defined.

Section enrich_cases.
Context `{Runtime}.

(** Property X8. [enrich_chunk] has two outcomes. When Bedrock answers, the body is
    JSON, its text path holds a string and the cleaned string is JSON, the
    result is the value decoded from the cleaned string, whatever its shape.
    In every other case the result is the default metadata. *)
Theorem enrich_chunk_cases (invoke_model : request → reply str)
    (chunk_text source : str) :
  (∃ body output raw enriched,
     invoke_model (enrich_request chunk_text) = Answer body ∧
     json_loads body = Some output ∧
     message_text output = Ret (JStr raw) ∧
     json_loads (clean_text raw) = Some enriched ∧
     enrich_chunk invoke_model chunk_text source = Ret enriched) ∨
  ((∃ e, enrich_try invoke_model chunk_text = Raise e) ∧
   enrich_chunk invoke_model chunk_text source
   = Ret (fallback_metadata chunk_text)).
Proof.
  unfold enrich_chunk, enrich_try, loads.
  destruct (invoke_model (enrich_request chunk_text)) as [body|e] eqn:Hcall;
    [|right; simpl; eauto].
  simpl. destruct (json_loads body) as [output|] eqn:Hbody;
    [|right; simpl; eauto].
  simpl. pose proof (finishes_message_text output) as Hfin.
  destruct (message_text output) as [v|e|] eqn:Htext;
    [|right; simpl; eauto|done].
  simpl. destruct v as [| | | |raw| |]; try (right; simpl; eauto; fail).
  simpl. fold (clean_text raw).
  destruct (json_loads (clean_text raw)) as [enriched|] eqn:Hraw;
    [|right; simpl; eauto].
  left. exists body, output, raw, enriched. by repeat split.
Qed.

End enrich_cases.

(** ** The pipeline under failing and misshapen replies *)

Section pipeline_replies.
Context `{Runtime}.
Variable bedrock : nat → request → reply str.

(** The inner loop appends one entry per raw chunk, with the source of the
    document. *)
Lemma pipeline_chunks_origin source chunks : ∀ st st',
  for_each (pipeline_chunk bedrock source) chunks st = Ret st' →
  map (λ c, (ec_source c, ec_text c)) (all_chunks st') =
  map (λ c, (ec_source c, ec_text c)) (all_chunks st) ++
  ((λ chunk, (source, chunk)) <$> chunks).
Proof.
  induction chunks as [|chunk chunks IH]; intros st st' Hloop.
  - simpl in Hloop. inversion Hloop. by rewrite app_nil_r.
  - apply for_each_ret_inv in Hloop as (s1 & Hstep & Hrest).
    apply pipeline_chunk_ret_inv in Hstep as (d & _ & ->).
    rewrite (IH _ _ Hrest). simpl. rewrite map_app. simpl.
    by rewrite <- app_assoc.
Qed.

Lemma pipeline_documents_origin fuel docs : ∀ st st',
  for_each (pipeline_document bedrock fuel) docs st = Ret st' →
  ∃ raw : list (list str),
    Forall2 (λ doc chunks,
      split_text fuel (doc_text doc) default_chunk_size default_overlap
      = Ret chunks) docs raw ∧
    map (λ c, (ec_source c, ec_text c)) (all_chunks st') =
    map (λ c, (ec_source c, ec_text c)) (all_chunks st) ++
    concat (zip_with (λ doc chunks, (λ chunk, (doc_source doc, chunk)) <$> chunks)
              docs raw).
Proof.
  induction docs as [|doc docs IH]; intros st st' Hloop.
  - simpl in Hloop. inversion Hloop. exists []. split; [constructor|].
    by rewrite app_nil_r.
  - apply for_each_ret_inv in Hloop as (s1 & Hdoc & Hrest).
    unfold pipeline_document in Hdoc.
    apply bind_ret_inv in Hdoc as (chunks & Hsplit & Hinner).
    destruct (IH _ _ Hrest) as (raw & Hraw & Horigin).
    exists (chunks :: raw). split; [by constructor|].
    rewrite Horigin, (pipeline_chunks_origin _ _ _ _ Hinner). simpl.
    by rewrite <- app_assoc.
Qed.

(** Property X12. Every catalog entry carries the name of the document its chunk
    was cut from: the pairs of source and text of the catalog are, document
    after document in the order given, the name of the document paired with
    each of its raw chunks. *)
Theorem pipeline_provenance (fuel : nat) (docs : list Document)
    (catalog : list EnrichedChunk) :
  agentic_chunking_pipeline bedrock fuel docs = Ret catalog →
  ∃ raw : list (list str),
    Forall2 (λ doc chunks,
      split_text fuel (doc_text doc) default_chunk_size default_overlap
      = Ret chunks) docs raw ∧
    map (λ c, (ec_source c, ec_text c)) catalog =
    concat (zip_with (λ doc chunks, (λ chunk, (doc_source doc, chunk)) <$> chunks)
              docs raw).
Proof.
  intros Hrun. unfold agentic_chunking_pipeline in Hrun.
  apply bind_ret_inv in Hrun as (st & Hloop & Hret). inversion Hret; subst.
  by apply pipeline_documents_origin in Hloop.
Qed.

(** Property X10. When every call to Bedrock fails, the pipeline still returns, given
    fuel for the longest document, and every entry of its catalog has the
    default metadata: the title "General Information", the first 100
    characters of its text as summary, no keywords, "General" and 5. *)
Theorem pipeline_outage (fuel : nat) (docs : list Document) :
  (∀ n req, ∃ e, bedrock n req = Failure e) →
  Forall (λ doc, length (str_split (doc_text doc)) < fuel) docs →
  ∃ catalog,
    agentic_chunking_pipeline bedrock fuel docs = Ret catalog ∧
    Forall default_metadata catalog.
Proof.
  intros Hfail Hfuel.
  assert (Hfallback : ∀ n chunk source,
    enrich_chunk (bedrock n) chunk source = Ret (fallback_metadata chunk)).
  { intros n chunk source. destruct (Hfail n (enrich_request chunk)) as [e He].
    eapply enrich_chunk_fallback. by apply enrich_try_call_fails. }
  assert (Hdicts : enrichments_are_dicts bedrock).
  { intros n chunk source. rewrite Hfallback. by eexists. }
  destruct (pipeline_documents_return bedrock fuel docs Hdicts Hfuel initial_state)
    as [st Hst].
  exists (all_chunks st).
  assert (Hrun : agentic_chunking_pipeline bedrock fuel docs = Ret (all_chunks st)).
  { unfold agentic_chunking_pipeline. by rewrite Hst. }
  split; [done|].
  destruct (pipeline_catalog bedrock fuel docs _ Hrun) as [Hall _].
  apply Forall_forall. intros c Hc.
  apply list_elem_of_lookup in Hc as [k Hk].
  destruct (Hall k c Hk) as (d & Henrich & Hentry).
  rewrite Hfallback in Henrich.
  destruct (fallback_lookup (ec_text c))
    as (d' & Hd' & Htitle & Hsummary & Hkeywords & Hcategory & Himportance).
  rewrite Hd' in Henrich. inversion Henrich; subst d'.
  unfold default_metadata. rewrite Hentry. simpl.
  by rewrite Htitle, Hsummary, Hkeywords, Hcategory, Himportance.
Qed.

(** Property X11. When the model's text for the first chunk decodes to a value that
    is no dictionary (a list, a string, a number, [true], [null]), the
    pipeline raises [AttributeError] for the missing [get] and returns no
    catalog, whatever the other documents and replies. *)
Theorem pipeline_non_dict_reply (fuel : nat) (doc : Document)
    (docs : list Document) (chunk : str) (chunks : list str) (v : json) :
  split_text fuel (doc_text doc) default_chunk_size default_overlap
  = Ret (chunk :: chunks) →
  enrich_try (bedrock 0) chunk = Ret v →
  (∀ d, v ≠ JObj d) →
  agentic_chunking_pipeline bedrock fuel (doc :: docs) =
  Raise (AttributeError (type_of v) (lit "get")).
Proof.
  intros Hsplit Htry Hv. unfold agentic_chunking_pipeline.
  rewrite for_each_cons.
  assert (Hdoc : pipeline_document bedrock fuel initial_state doc =
                 Raise (AttributeError (type_of v) (lit "get"))).
  { unfold pipeline_document. rewrite Hsplit, bind_ret, for_each_cons.
    rewrite (pipeline_chunk_not_dict bedrock _ _ _ v); [done| |done].
    by apply enrich_chunk_decoded. }
  by rewrite Hdoc.
Qed.

End pipeline_replies.

(** ** The index after a build *)

(** A batch does not touch the ids it does not name. *)
Lemma upsert_lookup_other pts : ∀ (m : gmap Z PointStruct) i,
  i ∉ map pt_id pts → foldl upsert_point m pts !! i = m !! i.
Proof.
  induction pts as [|p pts IH]; intros m i Hi; [done|].
  simpl in *. apply not_elem_of_cons in Hi as [Hne Hi].
  rewrite IH by done. unfold upsert_point. by rewrite lookup_insert_ne.
Qed.

(** With distinct ids, every point of a batch is found under its id. *)
Lemma upsert_lookup_member pts : ∀ (m : gmap Z PointStruct) p,
  NoDup (map pt_id pts) → p ∈ pts →
  foldl upsert_point m pts !! pt_id p = Some p.
Proof.
  induction pts as [|p0 pts IH]; intros m p Hnodup Hp;
    [by apply elem_of_nil in Hp|].
  simpl in *. apply NoDup_cons in Hnodup as [Hfresh Hnodup].
  apply elem_of_cons in Hp as [->|Hp]; [|by apply IH].
  rewrite upsert_lookup_other by done. unfold upsert_point.
  by rewrite lookup_insert_eq.
Qed.

Lemma chunk_payload_fields (c : EnrichedChunk) :
  chunk_payload c !! lit "text" = Some (JStr (ec_text c)) ∧
  chunk_payload c !! lit "title" = Some (ec_title c) ∧
  chunk_payload c !! lit "summary" = Some (ec_summary c) ∧
  chunk_payload c !! lit "keywords" = Some (ec_keywords c) ∧
  chunk_payload c !! lit "category" = Some (ec_category c) ∧
  chunk_payload c !! lit "importance" = Some (ec_importance c) ∧
  chunk_payload c !! lit "source" = Some (JStr (ec_source c)).
Proof. repeat split. Qed.

(** Property X13. [create_collection] returns whatever the server holds. Afterwards
    the collection "metricon_rag" exists, is empty and takes vectors of size
    384; the collections of other names are as they were; and a second call
    changes nothing. *)
Theorem create_collection_fresh (q : qdrant_state) :
  ∃ q' : qdrant_state,
    create_collection q = Ret q' ∧
    q' !! COLLECTION = Some {| coll_size := 384; coll_points := ∅ |} ∧
    (∀ name, name ≠ COLLECTION → q' !! name = q !! name) ∧
    create_collection q' = Ret q'.
Proof.
  eexists. split; [apply create_collection_ret|].
  split; [by rewrite lookup_insert_eq|]. split.
  - intros name Hname. rewrite lookup_insert_ne by done.
    by rewrite lookup_delete_ne.
  - rewrite create_collection_ret. f_equal.
    by rewrite delete_insert_eq, delete_delete_eq.
Qed.

Section index_round_trip.
Context `{Runtime}.

Lemma ingest_points_member encode chunks points c :
  for_each (ingest_chunk encode) chunks [] = Ret points →
  c ∈ chunks →
  ∃ p, p ∈ points ∧ pt_id p = ec_id c ∧ pt_payload p = chunk_payload c.
Proof.
  intros Hloop Hc. destruct (ingest_points _ _ _ _ Hloop) as (Hids & Hpay & _).
  simpl in Hids, Hpay. apply list_elem_of_lookup in Hc as [k Hk].
  assert (Hidk : map pt_id points !! k = Some (ec_id c)).
  { rewrite Hids. change (map ec_id chunks) with (ec_id <$> chunks).
    by rewrite list_lookup_fmap, Hk. }
  change (map pt_id points) with (pt_id <$> points) in Hidk.
  rewrite list_lookup_fmap in Hidk.
  destruct (points !! k) as [p|] eqn:Hp; [|done]. simpl in Hidk.
  exists p. split; [by eapply list_elem_of_lookup_2|]. split; [congruence|].
  assert (Hpayk : map pt_payload points !! k = Some (chunk_payload c)).
  { rewrite Hpay. change (map chunk_payload chunks) with (chunk_payload <$> chunks).
    by rewrite list_lookup_fmap, Hk. }
  change (map pt_payload points) with (pt_payload <$> points) in Hpayk.
  rewrite list_lookup_fmap, Hp in Hpayk. simpl in Hpayk. congruence.
Qed.

(** Property X14. After a build from a catalog whose ids are distinct, every entry
    is found in the index under its id, with a payload that holds its text,
    title, summary, keywords, category, importance and source. *)
Theorem index_round_trip (encode : str → reply vector)
    (chunks : list EnrichedChunk) (q q' : qdrant_state) (c : EnrichedChunk) :
  NoDup (map ec_id chunks) →
  data_ingestion encode chunks q = Ret q' →
  c ∈ chunks →
  ∃ payload,
    index_payload q' (ec_id c) = Some payload ∧
    payload !! lit "text" = Some (JStr (ec_text c)) ∧
    payload !! lit "title" = Some (ec_title c) ∧
    payload !! lit "summary" = Some (ec_summary c) ∧
    payload !! lit "keywords" = Some (ec_keywords c) ∧
    payload !! lit "category" = Some (ec_category c) ∧
    payload !! lit "importance" = Some (ec_importance c) ∧
    payload !! lit "source" = Some (JStr (ec_source c)).
Proof.
  intros Hnodup Hrun Hc.
  apply data_ingestion_ret_inv in Hrun as (points & Hpoints & Hq').
  destruct (ingest_points _ _ _ _ Hpoints) as (Hids & _).
  destruct (ingest_points_member _ _ _ _ Hpoints Hc) as (p & Hp & Hid & Hpay).
  exists (chunk_payload c). split; [|apply chunk_payload_fields].
  rewrite (index_payload_lookup _ _ _ Hq'). simpl. rewrite <- Hid.
  rewrite upsert_lookup_member; [by rewrite <- Hpay| |done].
  simpl in Hids. by rewrite Hids.
Qed.

(** The script seen from the server hands on what [data_ingestion] does. *)
Lemma create_collection_on_server_run (srv : server) :
  create_collection_on_server srv =
  (Ret (),
   {| collections :=
        <[COLLECTION := {| coll_size := 384; coll_points := ∅ |}]>
          (delete COLLECTION (collections srv));
      requests :=
        requests srv ++
        GetCollections ::
        (if bool_decide (COLLECTION ∈ dom (collections srv))
         then [DeleteCollection COLLECTION] else []) ++
        [CreateCollection COLLECTION 384] |}).
Proof.
  destruct srv as [q log].
  unfold create_collection_on_server, mbind, script_bind, get_collections.
  cbn [collections requests]. case_bool_decide as Hin.
  - unfold send at 1. cbn [collections requests qdrant_delete_collection].
    unfold send. cbn [collections requests]. unfold qdrant_create_collection.
    rewrite lookup_delete_eq. by rewrite <- !app_assoc.
  - unfold mret, script_ret, send. cbn [collections requests].
    unfold qdrant_create_collection.
    apply not_elem_of_dom in Hin. rewrite Hin, delete_id by done.
    by rewrite <- !app_assoc.
Qed.

Lemma data_ingestion_on_server_outcome (encode : str → reply vector)
    (chunks : list EnrichedChunk) (srv : server) :
  outcome (data_ingestion_on_server encode chunks srv) =
  data_ingestion encode chunks (collections srv).
Proof.
  unfold data_ingestion_on_server, data_ingestion.
  unfold mbind at 1, script_bind at 1.
  rewrite create_collection_on_server_run, create_collection_ret, bind_ret.
  unfold ingest_chunks_on_server, ingest_chunks, mbind at 1, script_bind, offline.
  destruct (for_each (ingest_chunk encode) chunks []) as [points|e|]; [|done..].
  rewrite bind_ret. unfold send, outcome. cbn [collections requests].
  by destruct (qdrant_upsert COLLECTION points _).
Qed.

(** Property X15. The first chunk the embedder fails on ends the ingestion
    with the embedder's exception. The server has then received the requests
    of [create_collection] and no other, so no upsert: the batch is sent
    once, after the loop, which the run never leaves. What the server holds
    under the collection's name is the new, empty collection; the points of
    an earlier build are gone and none of this catalog is stored, the chunks
    embedded before the failure included. *)
Theorem data_ingestion_embedder_fails (encode : str → reply vector)
    (before after : list EnrichedChunk) (c : EnrichedChunk) (e : exn)
    (q : qdrant_state) :
  Forall (λ c', ∃ v, encode (text_to_embed c') = Answer v) before →
  encode (text_to_embed c) = Failure e →
  data_ingestion encode (before ++ c :: after) q = Raise e ∧
  ∃ srv,
    data_ingestion_on_server encode (before ++ c :: after)
      {| collections := q; requests := [] |} = (Raise e, srv) ∧
    requests srv =
      GetCollections ::
      (if bool_decide (COLLECTION ∈ dom q)
       then [DeleteCollection COLLECTION] else []) ++
      [CreateCollection COLLECTION 384] ∧
    Forall (λ r, is_upsert r = false) (requests srv) ∧
    collections srv =
      <[COLLECTION := {| coll_size := 384; coll_points := ∅ |}]> q ∧
    index_ids (collections srv) = ∅.
Proof.
  intros Hbefore Hfails.
  assert (Hloop : ∀ acc,
    for_each (ingest_chunk encode) (before ++ c :: after) acc = Raise e).
  { induction Hbefore as [|c' before [v Hv] _ IH]; intros acc.
    - change ([] ++ c :: after) with (c :: after). rewrite for_each_cons.
      assert (ingest_chunk encode acc c = Raise e) as ->; [|done].
      unfold ingest_chunk. by rewrite Hfails.
    - change ((c' :: before) ++ c :: after) with (c' :: (before ++ c :: after)).
      rewrite for_each_cons.
      assert (∃ acc', ingest_chunk encode acc c' = Ret acc') as [acc' ->].
      { unfold ingest_chunk. rewrite Hv. by eexists. }
      rewrite bind_ret. apply IH. }
  split.
  { unfold data_ingestion.
    rewrite create_collection_ret, bind_ret. unfold ingest_chunks.
    by rewrite Hloop. }
  eexists. split.
  { unfold data_ingestion_on_server, mbind at 1, script_bind at 1.
    rewrite create_collection_on_server_run.
    unfold ingest_chunks_on_server, mbind, script_bind, offline.
    rewrite Hloop. reflexivity. }
  cbn [collections requests]. split; [done|]. split; [|split].
  - constructor; [done|]. case_bool_decide; by repeat constructor.
  - by rewrite insert_delete_eq.
  - unfold index_ids. by rewrite lookup_insert_eq.
Qed.

End index_round_trip.

Section pipeline_then_index.
Context `{Runtime}.

(** Property X16. The pipeline and the ingestion fit together: a build from the
    catalog the pipeline returned leaves the ids 0 .. N-1 in the index, N
    being the length of the catalog, and the entry at position [k] of the
    catalog is found under the id [k]. *)
Theorem pipeline_then_index (bedrock : nat → request → reply str) (fuel : nat)
    (docs : list Document) (catalog : list EnrichedChunk)
    (encode : str → reply vector) (q q' : qdrant_state) :
  agentic_chunking_pipeline bedrock fuel docs = Ret catalog →
  data_ingestion encode catalog q = Ret q' →
  index_ids q' = list_to_set (Z.of_nat <$> seq 0 (length catalog)) ∧
  ∀ k c, catalog !! k = Some c →
    index_payload q' (Z.of_nat k) = Some (chunk_payload c).
Proof.
  intros Hpipeline Hbuild.
  destruct (pipeline_catalog bedrock fuel docs catalog Hpipeline) as [Hall _].
  assert (Hids : map ec_id catalog = Z.of_nat <$> seq 0 (length catalog)).
  { apply lookup_index_map. intros k c Hk.
    destruct (Hall k c Hk) as (d & _ & ->). done. }
  apply data_ingestion_ret_inv in Hbuild as (points & Hpoints & Hq').
  destruct (ingest_points _ _ _ _ Hpoints) as (Hpids & _). simpl in Hpids.
  split.
  - unfold index_ids. rewrite Hq'. simpl.
    by rewrite upsert_ids, dom_empty_L, union_empty_l_L, Hpids, Hids.
  - intros k c Hk.
    assert (Hc : c ∈ catalog) by (by eapply list_elem_of_lookup_2).
    destruct (ingest_points_member _ _ _ _ Hpoints Hc) as (p & Hp & Hid & Hpay).
    assert (Hidc : ec_id c = Z.of_nat k)
      by (destruct (Hall k c Hk) as (d & _ & ->); done).
    rewrite (index_payload_lookup _ _ _ Hq'). simpl.
    rewrite <- Hidc, <- Hid, upsert_lookup_member; [by rewrite <- Hpay| |done].
    rewrite Hpids, Hids. apply NoDup_fmap; [intros ?? ?; lia|apply NoDup_seq].
Qed.

End pipeline_then_index.

(** ** [rag_answer], path by path *)

Section answer_paths.
Context `{Runtime}.

Lemma render_point_complete acc p :
  complete_point p →
  render_point acc p =
  Ret (acc.1 ++ [context_block p], acc.2 ++ [source_block p]).
Proof.
  intros (d & Hd & Hkeys). unfold rendered_keys in Hkeys.
  repeat (apply Forall_cons in Hkeys as [[? ?] Hkeys]).
  unfold render_point, context_block, source_block, field, payload_value.
  rewrite Hd. simpl. by repeat (match goal with Hk : d !! _ = Some _ |- _ =>
    rewrite Hk; clear Hk; simpl end).
Qed.


(** A point that lacks its payload or one of the keys cannot be rendered. *)
Lemma render_point_incomplete acc p :
  ¬ complete_point p →
  ∃ e, render_point acc p = Raise e ∧
       (e = TypeError TNone ∨ ∃ key, key ∈ rendered_keys ∧ e = KeyError (JStr key)).
Proof.
  intros Hp. unfold render_point, payload_value.
  destruct (payload p) as [d|] eqn:Hd; [|eexists; split; [done|by left]].
  simpl.
  destruct (d !! lit "category") as [category|] eqn:Hcategory;
    [|eexists; split; [done|right; eexists; split; [|done]; set_solver]].
  simpl. destruct (d !! lit "title") as [title|] eqn:Htitle;
    [|eexists; split; [done|right; eexists; split; [|done]; set_solver]].
  simpl. destruct (d !! lit "text") as [text|] eqn:Htext;
    [|eexists; split; [done|right; eexists; split; [|done]; set_solver]].
  simpl. destruct (d !! lit "source") as [source|] eqn:Hsource;
    [|eexists; split; [done|right; eexists; split; [|done]; set_solver]].
  simpl. destruct (d !! lit "importance") as [importance|] eqn:Himportance;
    [|eexists; split; [done|right; eexists; split; [|done]; set_solver]].
  destruct Hp. exists d. split; [done|].
  unfold rendered_keys. by repeat constructor.
Qed.

Lemma render_points_incomplete before p after : ∀ acc,
  Forall complete_point before → ¬ complete_point p →
  ∃ e,
    for_each render_point (before ++ p :: after) acc = Raise e ∧
    (e = TypeError TNone ∨ ∃ key, key ∈ rendered_keys ∧ e = KeyError (JStr key)).
Proof.
  intros acc Hbefore Hp. revert acc.
  induction Hbefore as [|p' before Hp' _ IH]; intros acc.
  - destruct (render_point_incomplete acc p Hp) as (e & He & Hkind).
    exists e. split; [|done].
    change ([] ++ p :: after) with (p :: after).
    by rewrite for_each_cons, He.
  - change ((p' :: before) ++ p :: after) with (p' :: (before ++ p :: after)).
    rewrite for_each_cons, (render_point_complete _ _ Hp'), bind_ret.
    apply IH.
Qed.

Lemma rag_try_points svc question history top_k show_sources query_vec points :
  embedder_encode svc question = Answer query_vec →
  qdrant_query_points svc COLLECTION query_vec top_k = Answer points →
  points ≠ [] →
  rag_try svc question history top_k show_sources [] =
  (rendered ← internal (for_each render_point points ([], []));
   let context := str_join (nl ++ nl) rendered.1 in
   let req := answer_request context question in
   body ← external (CallInvokeModel req) (bedrock_invoke_model svc req);
   output ← internal (loads body);
   answer ← internal (message_text output);
   let sources_text :=
     if show_sources then str_join (nl ++ nl) rendered.2 else [] in
   mret (history ++ [ user_turn question; assistant_turn answer ], sources_text))
    [ CallEncode question; CallQueryPoints COLLECTION query_vec top_k ].
Proof.
  intros Hencode Hquery Hpoints. unfold rag_try.
  unfold mbind at 1, io_bind at 1, external at 1. rewrite Hencode. cbn [of_reply].
  unfold mbind at 1, io_bind at 1, external at 1. rewrite Hquery. cbn [of_reply].
  by destruct points.
Qed.


(** Property X20. When one of the points returned lacks its payload or one of the
    keys read from it, and the points before it are complete, the invocation
    appends the question and an error turn that carries the [TypeError] or
    the [KeyError]; Bedrock is not called. *)
Theorem rag_answer_incomplete_point (svc : services) (question : str)
    (history : list turn) (top_k : Z) (show_sources : bool)
    (query_vec : vector) (before after : list ScoredPoint) (p : ScoredPoint) :
  embedder_encode svc question = Answer query_vec →
  qdrant_query_points svc COLLECTION query_vec top_k
  = Answer (before ++ p :: after) →
  Forall complete_point before →
  ¬ complete_point p →
  ∃ e,
    (e = TypeError TNone ∨ ∃ key, key ∈ rendered_keys ∧ e = KeyError (JStr key)) ∧
    rag_answer svc question history top_k show_sources =
    (Ret (history ++
            [ {| turn_role := user; content := JStr question |};
              {| turn_role := assistant;
                 content := JStr ([10060%N] ++ lit " Error: " ++ exn_str e) |} ],
          []),
     [ CallEncode question; CallQueryPoints COLLECTION query_vec top_k ]).
Proof.
  intros Hencode Hquery Hbefore Hp.
  assert (Hne : before ++ p :: after ≠ []) by (by destruct before).
  destruct (render_points_incomplete before p after ([], []) Hbefore Hp)
    as (e & Hrender & Hkind).
  exists e. split; [done|].
  apply rag_answer_except.
  rewrite (rag_try_points _ _ _ _ _ _ _ Hencode Hquery Hne).
  unfold mbind, io_bind, internal. by rewrite Hrender.
Qed.

(** Property X18. Whatever the collaborators answer, an invocation calls the
    embedder first, then at most the index, then at most Bedrock, each at
    most once; and Bedrock is called only after the index returned at least
    one point. *)
Theorem rag_answer_calls (svc : services) (question : str)
    (history : list turn) (top_k : Z) (show_sources : bool) :
  let log := (rag_answer svc question history top_k show_sources).2 in
  log = [ CallEncode question ] ∨
  (∃ query_vec,
     log = [ CallEncode question; CallQueryPoints COLLECTION query_vec top_k ]) ∨
  (∃ query_vec req p points,
     qdrant_query_points svc COLLECTION query_vec top_k = Answer (p :: points) ∧
     log = [ CallEncode question; CallQueryPoints COLLECTION query_vec top_k;
             CallInvokeModel req ]).
Proof.
  unfold rag_answer, io_try_except, rag_try, mbind, io_bind, external, internal.
  destruct (embedder_encode svc question) as [query_vec|e]; [|by left].
  cbn [of_reply].
  destruct (qdrant_query_points svc COLLECTION query_vec top_k)
    as [[|p points]|e] eqn:Hquery; cbn [of_reply];
    [right; left; by eexists| |right; left; by eexists].
  destruct (for_each render_point (p :: points) ([], [])) as [rendered|e|];
    [|right; left; by eexists|right; left; by eexists].
  right. right. exists query_vec. eexists _, p, points. split; [done|].
  destruct (bedrock_invoke_model svc _) as [body|e]; cbn [of_reply]; [|done].
  unfold loads. destruct (json_loads body) as [output|]; [|done].
  by destruct (message_text output).
Qed.

(** Property X19. When sources are not wanted, the sources text is the empty string
    on every path. *)
Theorem rag_answer_without_sources (svc : services) (question : str)
    (history : list turn) (top_k : Z) (r : list turn * str) (log : list call) :
  rag_answer svc question history top_k false = (Ret r, log) → r.2 = [].
Proof.
  unfold rag_answer, io_try_except, rag_try, rag_except, mbind, io_bind,
    external, internal, mret, io_ret.
  destruct (embedder_encode svc question) as [query_vec|e];
    cbn [of_reply]; [|by intros [= <- _]].
  destruct (qdrant_query_points svc COLLECTION query_vec top_k)
    as [[|p points]|e]; cbn [of_reply]; try (by intros [= <- _]).
  destruct (for_each render_point (p :: points) ([], [])) as [rendered|e|];
    try (by intros [= <- _]).
  destruct (bedrock_invoke_model svc _) as [body|e]; cbn [of_reply];
    [|by intros [= <- _]].
  unfold loads. destruct (json_loads body) as [output|]; [|by intros [= <- _]].
  destruct (message_text output); by intros [= <- _].
Qed.

End answer_paths.

(** ** The pipeline from the folder on *)

Section folder_runs.
Context `{Runtime}.

(** Property X21. On a folder that holds no file named "*.pdf", the pipeline
    returns the empty catalog, whatever Bedrock would answer. *)
Theorem pipeline_on_folder_without_pdf (bedrock : nat → request → reply str)
    (fuel : nat) (entries : list folder_entry) :
  Forall (λ entry, ¬ is_pdf entry) entries →
  agentic_chunking_pipeline_on_folder bedrock fuel (Answer entries) = Ret [].
Proof.
  intros Hentries. unfold agentic_chunking_pipeline_on_folder.
  assert (Hload : load_pdfs (Answer entries) = Ret []).
  { apply load_pdfs_documents. exists [].
    rewrite (filter_none _ _ Hentries). by split; [constructor|]. }
  by rewrite Hload.
Qed.

End folder_runs.

(** ** Further concrete runs *)

Section further_runs.
#[local] Existing Instance sample_runtime.

Lemma pipeline_on_folder_without_pdf_witness :
  agentic_chunking_pipeline_on_folder bedrock_timeout 100
    (Answer [ {| entry_name := lit "notes.txt";
                 entry_pages := Failure (ServiceError (lit "not a PDF")) |};
              {| entry_name := lit "REPORT.PDF"; entry_pages := Answer [] |} ])
  = Ret [].
Proof.
  apply pipeline_on_folder_without_pdf.
  repeat constructor; by vm_compute.
Defined.

Lemma pipeline_provenance_witness :
  agentic_chunking_pipeline bedrock_timeout 100 [months_doc; finance_doc]
  = Ret [fallback_entry 0 months_doc; fallback_entry 1 finance_doc] ∧
  ∃ raw : list (list str),
    Forall2 (λ doc chunks,
      split_text 100 (doc_text doc) default_chunk_size default_overlap
      = Ret chunks) [months_doc; finance_doc] raw ∧
    map (λ c, (ec_source c, ec_text c))
      [fallback_entry 0 months_doc; fallback_entry 1 finance_doc] =
    concat (zip_with (λ doc chunks, (λ chunk, (doc_source doc, chunk)) <$> chunks)
              [months_doc; finance_doc] raw).
Proof.
  assert (Hrun :
    agentic_chunking_pipeline bedrock_timeout 100 [months_doc; finance_doc]
    = Ret [fallback_entry 0 months_doc; fallback_entry 1 finance_doc])
    by (vm_compute; reflexivity).
  split; [exact Hrun|].
  exact (pipeline_provenance bedrock_timeout 100 _ _ Hrun).
Defined.

Lemma pipeline_outage_witness :
  ∃ catalog,
    agentic_chunking_pipeline bedrock_timeout 100 [months_doc; finance_doc]
    = Ret catalog ∧
    Forall default_metadata catalog.
Proof.
  apply (pipeline_outage bedrock_timeout 100 [months_doc; finance_doc]).
  - intros n req. by eexists.
  - repeat constructor; vm_compute; lia.
Defined.

Lemma pipeline_non_dict_reply_witness :
  agentic_chunking_pipeline (bedrock_says array_reply) 100 [months_doc]
  = Raise (AttributeError TList (lit "get")).
Proof.
  assert (Htry : ∃ l,
    enrich_try (bedrock_says array_reply 0) months_text = Ret (JArr l))
    by (eexists; vm_compute; reflexivity).
  destruct Htry as [l Htry].
  apply (pipeline_non_dict_reply (bedrock_says array_reply) 100 months_doc []
           months_text [] (JArr l)).
  - vm_compute. reflexivity.
  - exact Htry.
  - intros d Hd. discriminate Hd.
Defined.

Lemma index_round_trip_witness :
  ∃ (q' : qdrant_state) payload,
    data_ingestion encode_zeros
      [fallback_entry 0 months_doc; fallback_entry 1 finance_doc] ∅ = Ret q' ∧
    index_payload q' 1 = Some payload ∧
    payload !! lit "text" = Some (JStr (doc_text finance_doc)).
Proof.
  assert (Hzeros : embeds encode_zeros)
    by (intros text; eexists; split; reflexivity).
  destruct (data_ingestion_returns encode_zeros
              [fallback_entry 0 months_doc; fallback_entry 1 finance_doc] ∅
              Hzeros) as [q' Hq'].
  assert (Hnodup : NoDup (map ec_id
    [fallback_entry 0 months_doc; fallback_entry 1 finance_doc])).
  { simpl. apply NoDup_cons. split; [|apply NoDup_singleton].
    intros Hin. apply list_elem_of_singleton in Hin. discriminate Hin. }
  assert (Hmember : fallback_entry 1 finance_doc ∈
    [fallback_entry 0 months_doc; fallback_entry 1 finance_doc])
    by (apply elem_of_cons; right; apply elem_of_cons; by left).
  destruct (index_round_trip encode_zeros _ ∅ q' (fallback_entry 1 finance_doc)
              Hnodup Hq' Hmember)
    as (payload & Hpayload & Htext & _).
  exists q', payload. split; [exact Hq'|]. split; [exact Hpayload|exact Htext].
Defined.

Lemma data_ingestion_embedder_fails_witness :
  data_ingestion encode_until_finance
    [fallback_entry 0 months_doc; fallback_entry 1 finance_doc] ∅
  = Raise (ServiceError (lit "CUDA out of memory")) ∧
  ∃ srv,
    data_ingestion_on_server encode_until_finance
      [fallback_entry 0 months_doc; fallback_entry 1 finance_doc]
      {| collections := ∅; requests := [] |}
    = (Raise (ServiceError (lit "CUDA out of memory")), srv) ∧
    requests srv = [GetCollections; CreateCollection COLLECTION 384] ∧
    index_ids (collections srv) = ∅.
Proof.
  destruct (data_ingestion_embedder_fails encode_until_finance
              [fallback_entry 0 months_doc] [] (fallback_entry 1 finance_doc)
              (ServiceError (lit "CUDA out of memory")) ∅)
    as (Hrun & srv & Hsrv & Hrequests & _ & _ & Hids).
  - repeat constructor. eexists. vm_compute. reflexivity.
  - vm_compute. reflexivity.
  - split; [exact Hrun|]. exists srv. split; [exact Hsrv|].
    split; [exact Hrequests|exact Hids].
Defined.

Lemma pipeline_then_index_witness :
  ∃ q' : qdrant_state,
    data_ingestion encode_zeros
      [fallback_entry 0 months_doc; fallback_entry 1 finance_doc] ∅ = Ret q' ∧
    index_ids q' = list_to_set (Z.of_nat <$> seq 0 2).
Proof.
  assert (Hrun :
    agentic_chunking_pipeline bedrock_timeout 100 [months_doc; finance_doc]
    = Ret [fallback_entry 0 months_doc; fallback_entry 1 finance_doc])
    by (vm_compute; reflexivity).
  assert (Hzeros : embeds encode_zeros)
    by (intros text; eexists; split; reflexivity).
  destruct (data_ingestion_returns encode_zeros
              [fallback_entry 0 months_doc; fallback_entry 1 finance_doc] ∅
              Hzeros) as [q' Hq'].
  exists q'. split; [exact Hq'|].
  exact (proj1 (pipeline_then_index bedrock_timeout 100 _ _ encode_zeros ∅ q'
                  Hrun Hq')).
Defined.

Lemma faq_point_complete : complete_point faq_point.
Proof.
  eexists. split; [reflexivity|]. unfold rendered_keys.
  repeat (apply Forall_cons; split; [eexists; vm_compute; reflexivity|]).
  constructor.
Qed.

Lemma untitled_point_incomplete : ¬ complete_point untitled_point.
Proof.
  intros (d & Hd & Hkeys). inversion Hd; subst d. clear Hd.
  apply Forall_cons in Hkeys as [_ Hkeys].
  apply Forall_cons in Hkeys as [[x Hx] _].
  vm_compute in Hx. discriminate Hx.
Qed.


Lemma rag_answer_incomplete_point_witness :
  ∃ e,
    rag_answer (services_with [faq_point; untitled_point]) build_question
      earlier_history 3 true =
    (Ret (earlier_history ++
            [ {| turn_role := user; content := JStr build_question |};
              {| turn_role := assistant;
                 content := JStr ([10060%N] ++ lit " Error: " ++ exn_str e) |} ],
          []),
     [ CallEncode build_question;
       CallQueryPoints COLLECTION (replicate 384 0%Z) 3 ]).
Proof.
  destruct (rag_answer_incomplete_point (services_with [faq_point; untitled_point])
              build_question earlier_history 3 true (replicate 384 0%Z)
              [faq_point] [] untitled_point eq_refl eq_refl
              ltac:(constructor; [exact faq_point_complete|constructor])
              untitled_point_incomplete) as (e & _ & Hrun).
  exists e. exact Hrun.
Defined.

Lemma rag_answer_without_sources_witness :
  ∃ r log,
    rag_answer (services_with [faq_point]) build_question earlier_history 3 false
    = (Ret r, log) ∧ r.2 = [].
Proof.
  destruct (rag_answer (services_with [faq_point]) build_question
              earlier_history 3 false) as [[r| |] log] eqn:Hrun;
    [|vm_compute in Hrun; discriminate Hrun
     |vm_compute in Hrun; discriminate Hrun].
  exists r, log. split; [reflexivity|].
  exact (rag_answer_without_sources _ _ _ _ r log Hrun).
Defined.

End further_runs.
